(** * Miniflare core: the bindings plugin

    A shallow embedding of [packages/core/src/plugins/bindings.ts]: the
    composition of a worker's bindings in [setup], the [Fetcher] that forwards
    a request to a mounted service, and the [beforeReload]/[reload] life
    cycle that gates those dispatches on a promise.

    JavaScript objects used as dictionaries are finite maps, the result of
    [Object.entries] is an association list, the heap of promises and the
    set of in-flight [fetch] calls are lists addressed by index, and code
    that throws runs in an error monad. *)

From Stdlib Require Import Ascii String.
From stdpp Require Import base option list strings gmap.

Local Open Scope string_scope.
Local Open Scope list_scope.
Local Open Scope stdpp_scope.

(** ** Errors and completions *)

(** Values that the modelled code throws. [assert] raises an
    [AssertionError], whose message is the optional second argument;
    [MiniflareCoreError] of [../error] carries a code and a message. Anything
    else (Node's file system errors, a handler's own exception) is a
    [JsError], of which only the [code] property is ever inspected. *)
Inductive Error :=
  | AssertionError (message : option string)
  | MiniflareCoreError (code message : string)
  | JsError (code : option string) (message : string).

(** [e.code] *)
Definition Error_code (e : Error) : option string :=
  match e with
  | AssertionError _ => Some "ERR_ASSERTION"
  | MiniflareCoreError c _ => Some c
  | JsError c _ => c
  end.

(** The outcome of running synchronous code. *)
Inductive Completion (A : Type) :=
  | Normal (a : A)
  | Throw (e : Error).
Arguments Normal {A} a.
Arguments Throw {A} e.

#[global] Instance Completion_ret : MRet Completion := @Normal.
#[global] Instance Completion_bind : MBind Completion := λ A B f c,
  match c with
  | Normal a => f a
  | Throw e => Throw e
  end.

(** How a promise ends up: fulfilled, rejected, or never settled. *)
Inductive Settlement (A : Type) :=
  | Fulfilled (a : A)
  | Rejected (e : Error)
  | Forever.
Arguments Fulfilled {A} a.
Arguments Rejected {A} e.
Arguments Forever {A}.

(** [Awaitable<T> = T | Promise<T>] *)
Inductive Awaitable (A : Type) :=
  | Plain (a : A)
  | Promised (s : Settlement A).
Arguments Plain {A} a.
Arguments Promised {A} s.

(** ** Requests, responses and handlers *)

(** [RequestInit], as a list of named settings. *)
Definition RequestInit := list (string * string).

(** Modelled from the spec: the [Request] class of [../standards], an
    opaque, copyable value constructible from an existing instance. A request
    is the term [new Request(input, init)] itself, and [RequestInfo] is a URL
    or a request. *)
Inductive Request :=
  | Request_new (input : RequestInfo) (init : option RequestInit)
with RequestInfo :=
  | InfoUrl (url : string)
  | InfoRequest (r : Request).

(** Modelled from the spec: the [Response] class of [../standards], a value
    constructible from a body and a status and headers description. *)
Record Response := Response_new {
  body : option string;
  status : Z;
  headers : list (string * string)
}.

(** [type FetcherFetch = (request: Request) => Awaitable<Response>]; a call
    either throws or returns a response or a promise of one. Handlers are
    taken to have no effect on the plugin. *)
Definition FetcherFetch := Request → Completion (Awaitable Response).

(** Modelled from the spec: [Mount] of [@miniflare/shared], of which the
    plugin reads only the optional [dispatchFetch] entry point. *)
Record Mount := { dispatchFetch : option FetcherFetch }.

(** [string | FetcherFetch], the [service] of a processed binding. *)
Inductive ServiceTarget :=
  | Named (service : string)
  | Custom (f : FetcherFetch).

(** A [Fetcher] is determined by its [#service]; [#log] and
    [#getServiceFetch] always belong to the plugin that created it. *)
Record Fetcher := Fetcher_new { Fetcher_service : ServiceTarget }.

(** Values a binding can hold ([any]): configuration data, compiled
    WebAssembly modules (identified by their bytes) and fetchers. *)
#[warnings="-register-all"]
Inductive Value :=
  | VUndefined
  | VBool (b : bool)
  | VNumber (n : Z)
  | VString (s : string)
  | VObject (fields : list (string * Value))
  | VModule (bytes : string)
  | VFetcher (f : Fetcher).

(** [Context = Record<string, any>] *)
Abbreviation Context := (gmap string Value).

(** Whether a value is an object (there is no [null] among the values). *)
Definition is_object (v : Value) : bool :=
  match v with
  | VObject _ | VModule _ | VFetcher _ => true
  | _ => false
  end.

(** An object made by the literal [{}] and written by assignment only, as
    [bindings] in [setup]: its own properties, which are all writable data
    properties, and the value that has replaced [Object.prototype] as its
    prototype, if an assignment to [__proto__] has done so. The objects
    among the values are plain: the prototype chain of each ends in
    [Object.prototype], and only a [VObject] can have an own property of
    the name [__proto__]. *)
Record JsObject := {
  own : gmap string Value;
  prototype : option Value
}.

(** [{}] *)
#[global] Instance JsObject_empty : Empty JsObject :=
  {| own := ∅; prototype := None |}.

(** The own property of a name. *)
#[global] Instance JsObject_lookup : Lookup string Value JsObject :=
  λ k o, own o !! k.

(** Looking [__proto__] up from [o] finds a data property, on [o] itself or
    on its prototype, before it reaches the accessor of [Object.prototype]. *)
Definition shadows_proto_accessor (o : JsObject) : bool :=
  bool_decide (is_Some (own o !! "__proto__"))
  || match prototype o with
     | Some (VObject fields) => bool_decide ("__proto__" ∈ fields.*1)
     | _ => false
     end.

(** [o[k] = v]. The assignment makes or updates an own property, except
    for the name [__proto__] where that reaches the accessor of
    [Object.prototype]: its setter makes an object the prototype of [o],
    ignores any other value, and makes no own property. *)
Definition JsObject_set (o : JsObject) (k : string) (v : Value) : JsObject :=
  if bool_decide (k = "__proto__") && negb (shadows_proto_accessor o) then
    if is_object v then {| own := own o; prototype := Some v |} else o
  else {| own := <[k := v]> (own o); prototype := prototype o |}.

(** [Object.assign(target, source)]: every own property of [source] is
    assigned to [target]; an [undefined] source is skipped. Assignments to
    different names do not depend on each other, so the order in which the
    source is gone through does not show in the result. *)
Definition Object_assign (target : JsObject) (source : option Context) : JsObject :=
  match source with
  | Some src => map_fold (λ k v o, JsObject_set o k v) target src
  | None => target
  end.

(** ** Options *)

(** [envPath?: boolean | string] *)
Inductive EnvPath :=
  | EnvFlag (b : bool)
  | EnvFile (path : string).

(** One value of [ServiceBindingsOptions]. *)
Inductive ServiceBindingOption :=
  | ServiceName (service : string)
  | ServiceObject (service : string) (environment : option string)
  | ServiceFunction (f : FetcherFetch).

Record BindingsOptions := {
  opt_envPath : option EnvPath;
  opt_kWranglerBindings : option Context;
  opt_envPathDefaultFallback : option bool;
  opt_bindings : option Context;
  opt_globals : option Context;
  opt_wasmBindings : option (list (string * string));
  opt_serviceBindings : option (list (string * ServiceBindingOption))
}.

Record ProcessedServiceBinding := {
  name : string;
  service : ServiceTarget;
  environment : string
}.

(** The plugin object. The first block is configuration, fixed by the
    constructor. The three private fields at the end are the mutable state
    of the reload cycle; a promise is referred to by its index in the store
    of promises, and [#contextResolve] by the promise it resolves. *)
Record BindingsPlugin := {
  rootPath : string;
  envPath : option EnvPath;
  kWranglerBindings : option Context;
  envPathDefaultFallback : option bool;
  bindings : option Context;
  globals : option Context;
  wasmBindings : option (list (string * string));
  serviceBindings : option (list (string * ServiceBindingOption));
  processedServiceBindings : list ProcessedServiceBinding;
  contextPromise : option nat;
  contextResolve : option nat;
  mounts : option (gmap string Mount)
}.

(** JavaScript truthiness of an optional boolean and of a string. *)
Definition truthy_flag (b : option bool) : bool := default false b.

Definition truthy_string (s : string) : bool :=
  match s with EmptyString => false | String _ _ => true end.

(** The callback of the [map] in the constructor. *)
Definition process_binding (entry : string * ServiceBindingOption)
  : ProcessedServiceBinding :=
  let '(n, options) := entry in
  let svc :=
    match options with
    | ServiceObject s _ => Named s
    | ServiceName s => Named s
    | ServiceFunction f => Custom f
    end in
  let env :=
    match options with
    | ServiceObject _ (Some e) => if truthy_string e then e else "production"
    | _ => "production"
    end in
  {| name := n; service := svc; environment := env |}.

(** [constructor(ctx, options)] *)
Definition BindingsPlugin_new (ctx_rootPath : string) (options : BindingsOptions)
  : BindingsPlugin :=
  {| rootPath := ctx_rootPath;
     envPath :=
       match opt_envPath options with
       | None =>
           if truthy_flag (opt_envPathDefaultFallback options)
           then Some (EnvFlag true) else None
       | Some p => Some p
       end;
     kWranglerBindings := opt_kWranglerBindings options;
     envPathDefaultFallback := opt_envPathDefaultFallback options;
     bindings := opt_bindings options;
     globals := opt_globals options;
     wasmBindings := opt_wasmBindings options;
     serviceBindings := opt_serviceBindings options;
     processedServiceBindings :=
       process_binding <$> default [] (opt_serviceBindings options);
     contextPromise := None;
     contextResolve := None;
     mounts := None |}.

(** ** [setup]: composing the bindings *)

Record SetupResult := {
  res_globals : option Context;
  res_bindings : JsObject;
  res_watch : list string
}.

(** What [setup] takes from outside the file: the file system read by
    [fs.readFile], [dotenv.parse], [path.resolve] and the validation done by
    the [WebAssembly.Module] constructor. *)
Class Host := {
  fs_readFile : string → Completion string;
  dotenv_parse : string → gmap string string;
  path_resolve : string → string → string;
  WebAssembly_validate : string → bool
}.

Section Setup.
Context {host : Host}.

(** [new WebAssembly.Module(bytes)] *)
Definition WebAssembly_Module (bytes : string) : Completion Value :=
  if WebAssembly_validate bytes then Normal (VModule bytes)
  else Throw (JsError None "WebAssembly.Module(): invalid module").

(** [e.code === "ENOENT"] *)
Definition is_ENOENT (e : Error) : bool :=
  bool_decide (Error_code e = Some "ENOENT").

(** [this.envPath === true] *)
Definition envPath_is_true (self : BindingsPlugin) : bool :=
  match envPath self with Some (EnvFlag true) => true | _ => false end.

(** [let envPath = this.envPath === true ? ".env" : this.envPath], as the
    path to load when that value is truthy. *)
Definition effective_envPath (self : BindingsPlugin) : option string :=
  match envPath self with
  | Some (EnvFlag true) => Some ".env"
  | Some (EnvFlag false) => None
  | Some (EnvFile p) => if truthy_string p then Some p else None
  | None => None
  end.

(** Step 2 of [setup], on the bindings and watch list built so far. *)
Definition load_env (self : BindingsPlugin) (acc : JsObject * list string)
  : Completion (JsObject * list string) :=
  let '(b, watch) := acc in
  match effective_envPath self with
  | Some p =>
      let p := path_resolve (rootPath self) p in
      b' ← match fs_readFile p with
           | Normal data =>
               Normal (Object_assign b (Some (VString <$> dotenv_parse data)))
           | Throw e =>
               if is_ENOENT e && envPath_is_true self then Normal b
               else Throw e
           end;
      mret (b', watch ++ [p])
  | None => mret (b, watch)
  end.

(** The body of the loop of step 3, for one entry of [wasmBindings]. *)
Definition load_wasm_entry (self : BindingsPlugin) (acc : JsObject * list string)
    (entry : string * string) : Completion (JsObject * list string) :=
  let '(b, watch) := acc in
  let '(n, wasmPath) := entry in
  let wasmPath := path_resolve (rootPath self) wasmPath in
  bytes ← fs_readFile wasmPath;
  m ← WebAssembly_Module bytes;
  mret (JsObject_set b n m, watch ++ [wasmPath]).

(** A [for ... of] loop whose body can throw. *)
Fixpoint for_of {A S} (body : S → A → Completion S) (s : S) (l : list A)
  : Completion S :=
  match l with
  | [] => mret s
  | x :: l' => s' ← body s x; for_of body s' l'
  end.

(** Step 3 of [setup]. *)
Definition load_wasm (self : BindingsPlugin) (acc : JsObject * list string)
  : Completion (JsObject * list string) :=
  match wasmBindings self with
  | Some entries => for_of (load_wasm_entry self) acc entries
  | None => mret acc
  end.

(** Step 4 of [setup]: one [Fetcher] per processed service binding. *)
Definition load_services (self : BindingsPlugin) (b : JsObject) : JsObject :=
  foldl (λ b psb, JsObject_set b (name psb) (VFetcher (Fetcher_new (service psb))))
        b (processedServiceBindings self).

(** [async setup()] *)
Definition setup (self : BindingsPlugin) : Completion SetupResult :=
  let b : JsObject := ∅ in
  let watch : list string := [] in
  let b := Object_assign b (kWranglerBindings self) in
  '(b, watch) ← load_env self (b, watch);
  '(b, watch) ← load_wasm self (b, watch);
  let b := load_services self b in
  let b := Object_assign b (bindings self) in
  mret {| res_globals := globals self; res_bindings := b; res_watch := watch |}.

(** *** What each source contributes

    The vocabulary in which the result of [setup] is described: for a
    name, the value each of the five sources has for it, if any. *)

(** The value an [Object.entries] list gives a name when its entries are
    written one after the other: that of the last entry of that name. *)
Fixpoint entries_last {V} (k : string) (l : list (string * V)) : option V :=
  match l with
  | [] => None
  | (k', v) :: l' =>
      match entries_last k l' with
      | Some v' => Some v'
      | None => if decide (k' = k) then Some v else None
      end
  end.

(** The variables of the env file in effect; none when there is no such
    file. *)
Definition env_source (self : BindingsPlugin) : Context :=
  match effective_envPath self with
  | Some p =>
      match fs_readFile (path_resolve (rootPath self) p) with
      | Normal data => VString <$> dotenv_parse data
      | Throw _ => ∅
      end
  | None => ∅
  end.

Definition wasm_source (self : BindingsPlugin) (k : string) : option Value :=
  wasmPath ← entries_last k (default [] (wasmBindings self));
  match fs_readFile (path_resolve (rootPath self) wasmPath) with
  | Normal bytes => Some (VModule bytes)
  | Throw _ => None
  end.

Definition service_source (self : BindingsPlugin) (k : string) : option Value :=
  entries_last k
    ((λ psb, (name psb, VFetcher (Fetcher_new (service psb))))
       <$> processedServiceBindings self).



(** The watch list entry of the env file in effect. *)
Definition env_watch (self : BindingsPlugin) : list string :=
  match effective_envPath self with
  | Some p => [path_resolve (rootPath self) p]
  | None => []
  end.

Definition wasm_watch (self : BindingsPlugin) : list string :=
  (λ entry, path_resolve (rootPath self) entry.2)
    <$> default [] (wasmBindings self).

End Setup.

(** ** The reload cycle and the world it runs in *)

(** The promises made by [beforeReload] carry no value: they are pending or
    resolved, and nothing ever rejects them. *)
Inductive PromiseState :=
  | PPending
  | PResolved.

(** A call of [Fetcher.fetch] in flight, at one of its [await]s.
    - [AwaitContext p service request]: [#getServiceFetch(service)] is
      suspended at [await this.#contextPromise], which is promise [p];
    - [AwaitServiceFetch r request]: [#getServiceFetch] has completed with
      [r], and [fetch] is to continue after [await this.#getServiceFetch(..)];
    - [Settled s]: the promise returned by [fetch] ends up as [s]. *)
Inductive Task :=
  | AwaitContext (p : nat) (service : string) (request : Request)
  | AwaitServiceFetch (r : Completion FetcherFetch) (request : Request)
  | Settled (s : Settlement Response).

(** The plugin together with what its code acts on: the store of promises,
    the calls of [fetch] in flight, the log sink ([ctx.log.error]) and, as
    an observation, every handler invocation in order. *)
Record World := {
  this : BindingsPlugin;
  promises : list PromiseState;
  tasks : list Task;
  log : list Error;
  calls : list (FetcherFetch * Request)
}.

Definition World_init (self : BindingsPlugin) : World :=
  {| this := self; promises := []; tasks := []; log := []; calls := [] |}.

(** Synchronous code of the plugin: it reads and writes the world and may
    throw; what it wrote before throwing stays written. *)
Definition M (A : Type) : Type := World → Completion A * World.

#[global] Instance M_ret : MRet M := λ A a w, (Normal a, w).
#[global] Instance M_bind : MBind M := λ A B f m w,
  match m w with
  | (Normal a, w') => f a w'
  | (Throw e, w') => (Throw e, w')
  end.

Definition throw {A} (e : Error) : M A := λ w, (Throw e, w).

Definition get_this : M BindingsPlugin := λ w, (Normal (this w), w).

Definition set_this (self : BindingsPlugin) : M unit := λ w,
  (Normal tt,
   {| this := self; promises := promises w; tasks := tasks w;
      log := log w; calls := calls w |}).

(** Assignments to the three private fields. *)
Definition with_mounts (m : option (gmap string Mount)) (self : BindingsPlugin)
  : BindingsPlugin :=
  {| rootPath := rootPath self; envPath := envPath self;
     kWranglerBindings := kWranglerBindings self;
     envPathDefaultFallback := envPathDefaultFallback self;
     bindings := bindings self; globals := globals self;
     wasmBindings := wasmBindings self;
     serviceBindings := serviceBindings self;
     processedServiceBindings := processedServiceBindings self;
     contextPromise := contextPromise self;
     contextResolve := contextResolve self;
     mounts := m |}.

Definition with_contextPromise (p : option nat) (self : BindingsPlugin)
  : BindingsPlugin :=
  {| rootPath := rootPath self; envPath := envPath self;
     kWranglerBindings := kWranglerBindings self;
     envPathDefaultFallback := envPathDefaultFallback self;
     bindings := bindings self; globals := globals self;
     wasmBindings := wasmBindings self;
     serviceBindings := serviceBindings self;
     processedServiceBindings := processedServiceBindings self;
     contextPromise := p;
     contextResolve := contextResolve self;
     mounts := mounts self |}.

Definition with_contextResolve (p : option nat) (self : BindingsPlugin)
  : BindingsPlugin :=
  {| rootPath := rootPath self; envPath := envPath self;
     kWranglerBindings := kWranglerBindings self;
     envPathDefaultFallback := envPathDefaultFallback self;
     bindings := bindings self; globals := globals self;
     wasmBindings := wasmBindings self;
     serviceBindings := serviceBindings self;
     processedServiceBindings := processedServiceBindings self;
     contextPromise := contextPromise self;
     contextResolve := p;
     mounts := mounts self |}.

Definition set_mounts (m : option (gmap string Mount)) : M unit :=
  self ← get_this; set_this (with_mounts m self).

Definition set_contextPromise (p : option nat) : M unit :=
  self ← get_this; set_this (with_contextPromise p self).

Definition set_contextResolve (p : option nat) : M unit :=
  self ← get_this; set_this (with_contextResolve p self).

(** [new Promise(executor)]: a fresh pending promise. Its [resolve]
    function is passed to the executor, which runs before the constructor
    returns. *)
Definition Promise_new (executor : nat → M unit) : M nat := λ w,
  let p := length (promises w) in
  (executor p ;; mret p)
    {| this := this w; promises := promises w ++ [PPending];
       tasks := tasks w; log := log w; calls := calls w |}.

(** Calling the [resolve] function of promise [p]; on a promise that is
    already resolved this changes nothing. *)
Definition Promise_resolve (p : nat) : M unit := λ w,
  (Normal tt,
   {| this := this w; promises := <[p := PResolved]> (promises w);
      tasks := tasks w; log := log w; calls := calls w |}).

Definition is_resolved (w : World) (p : nat) : bool :=
  match promises w !! p with
  | Some PResolved => true
  | _ => false
  end.

(** [assert(value, message)] *)
Definition assert (value : bool) (message : option string) : M unit :=
  if value then mret tt else throw (AssertionError message).

(** [this.#log.error(e)] *)
Definition log_error (e : Error) : M unit := λ w,
  (Normal tt,
   {| this := this w; promises := promises w; tasks := tasks w;
      log := log w ++ [e]; calls := calls w |}).

(** A handler is called: the call is observed, its outcome is the
    handler's. *)
Definition invoke (f : FetcherFetch) (request : Request)
  : World → Completion (Awaitable Response) * World := λ w,
  (f request,
   {| this := this w; promises := promises w; tasks := tasks w;
      log := log w; calls := calls w ++ [(f, request)] |}).

(** A [for ... of] loop in [M]. *)
Fixpoint for_each {A} (body : A → M unit) (l : list A) : M unit :=
  match l with
  | [] => mret tt
  | x :: l' => body x ;; for_each body l'
  end.

(** [beforeReload()] *)
Definition beforeReload : M unit :=
  set_mounts None ;;
  p ← Promise_new (λ resolve, set_contextResolve (Some resolve));
  set_contextPromise (Some p).

(** The double quote and the line break of the template literal. *)
Definition dq : string := String "034"%char "".
Definition nl : string := String "010"%char "".

(** The message of the [ERR_SERVICE_NOT_MOUNTED] error. *)
Definition not_mounted_message (svc n : string) : string :=
  "Service " +:+ dq +:+ svc +:+ dq +:+ " for binding " +:+ dq +:+ n +:+ dq
  +:+ " not found." +:+ nl +:+ "Make sure " +:+ dq +:+ svc +:+ dq
  +:+ " is mounted so Miniflare knows where to find it.".

(** [typeof service === "string" && !mounts.has(service)] *)
Definition not_mounted (m : gmap string Mount) (psb : ProcessedServiceBinding)
  : bool :=
  match service psb with
  | Named s => negb (bool_decide (is_Some (m !! s)))
  | Custom _ => false
  end.

(** The body of the loop of [reload]. *)
Definition check_mounted (m : gmap string Mount) (psb : ProcessedServiceBinding)
  : M unit :=
  match service psb with
  | Named s =>
      if negb (bool_decide (is_Some (m !! s)))
      then throw (MiniflareCoreError "ERR_SERVICE_NOT_MOUNTED"
                    (not_mounted_message s (name psb)))
      else mret tt
  | Custom _ => mret tt
  end.

(** [reload(bindings, moduleExports, mounts)]; the first two arguments are
    not used. *)
Definition reload (m : gmap string Mount) : M unit :=
  self ← get_this;
  for_each (check_mounted m) (processedServiceBindings self) ;;
  set_mounts (Some m) ;;
  self ← get_this;
  assert (bool_decide (is_Some (contextResolve self)))
         (Some "beforeReload() must be called before reload()") ;;
  match contextResolve self with
  | Some p => Promise_resolve p
  | None => mret tt
  end.

(** [dispose()] *)
Definition dispose : M unit := beforeReload.

(** ** Dispatch *)

(** [#getServiceFetch], up to its [await]: the promise it suspends on. *)
Definition getServiceFetch_begin : M nat :=
  self ← get_this;
  assert (bool_decide (is_Some (contextPromise self)))
         (Some "beforeReload() must be called before #getServiceFetch()") ;;
  match contextPromise self with
  | Some p => mret p
  | None => throw (AssertionError None)
  end.

(** [this.#mounts?.get(service)?.dispatchFetch] *)
Definition lookup_dispatchFetch (self : BindingsPlugin) (svc : string)
  : option FetcherFetch :=
  m ← mounts self; mount ← m !! svc; dispatchFetch mount.

(** [#getServiceFetch], after its [await]. *)
Definition getServiceFetch_resume (svc : string) : M FetcherFetch :=
  self ← get_this;
  let fetch := lookup_dispatchFetch self svc in
  assert (bool_decide (is_Some fetch)) None ;;
  match fetch with
  | Some f => mret f
  | None => throw (AssertionError None)
  end.

(** How the promise of an [async] function ends up when its body finishes
    with [return call] or with [return await call], [call] having completed
    as given: a thrown error and a rejected promise both reject it. *)
Definition settle {A} (c : Completion (Awaitable A)) : Settlement A :=
  match c with
  | Throw e => Rejected e
  | Normal (Plain a) => Fulfilled a
  | Normal (Promised s) => s
  end.

(** The response built in the [catch] block of [fetch]. *)
Definition exception_response : Response :=
  Response_new None 500 [("CF-Worker-Status", "exception")].

(** [try { return await fetch(request); } catch (e) { ... }] *)
Definition fetch_contained (fetch : FetcherFetch) (request : Request)
  : World → Settlement Response * World := λ w,
  let '(c, w) := invoke fetch request w in
  match settle c with
  | Rejected e => (Fulfilled exception_response, snd (log_error e w))
  | s => (s, w)
  end.

(** [Fetcher.fetch(input, init)], run until it first suspends or settles. *)
Definition Fetcher_fetch (f : Fetcher) (input : RequestInfo)
    (init : option RequestInit) : World → Task * World := λ w,
  let request := Request_new input init in
  match Fetcher_service f with
  | Custom h =>
      let '(c, w) := invoke h request w in (Settled (settle c), w)
  | Named svc =>
      match getServiceFetch_begin w with
      | (Normal p, w) => (AwaitContext p svc request, w)
      | (Throw e, w) => (AwaitServiceFetch (Throw e) request, w)
      end
  end.

(** The event loop runs the continuation of a suspended [fetch]. A task
    waiting for a pending promise is not runnable and stays as it is. *)
Definition resume (t : Task) : World → Task * World := λ w,
  match t with
  | AwaitContext p svc request =>
      if is_resolved w p then
        let '(r, w) := getServiceFetch_resume svc w in
        (AwaitServiceFetch r request, w)
      else (t, w)
  | AwaitServiceFetch (Throw e) _ => (Settled (Rejected e), w)
  | AwaitServiceFetch (Normal fetch) request =>
      let '(s, w) := fetch_contained fetch request w in (Settled s, w)
  | Settled _ => (t, w)
  end.

Definition set_tasks (ts : list Task) (w : World) : World :=
  {| this := this w; promises := promises w; tasks := ts;
     log := log w; calls := calls w |}.

(** What can happen to the plugin: the host drives the reload cycle, a
    worker calls [fetch] on a binding, the event loop resumes a [fetch]. *)
Inductive Event :=
  | EvBeforeReload
  | EvReload (m : gmap string Mount)
  | EvDispose
  | EvFetch (f : Fetcher) (input : RequestInfo) (init : option RequestInit)
  | EvResume (tid : nat).

(** One event. An error thrown by [reload] goes to the host; the world
    keeps what was written before the throw. A new [fetch] gets the next
    index in [tasks]. *)
Definition step (w : World) (ev : Event) : World :=
  match ev with
  | EvBeforeReload => snd (beforeReload w)
  | EvReload m => snd (reload m w)
  | EvDispose => snd (dispose w)
  | EvFetch f input init =>
      let '(t, w) := Fetcher_fetch f input init w in
      set_tasks (tasks w ++ [t]) w
  | EvResume tid =>
      match tasks w !! tid with
      | Some t =>
          let '(t, w) := resume t w in
          set_tasks (<[tid := t]> (tasks w)) w
      | None => w
      end
  end.

Definition run (w : World) (evs : list Event) : World := foldl step w evs.

Definition is_resume (tid : nat) (ev : Event) : bool :=
  match ev with
  | EvResume tid' => bool_decide (tid' = tid)
  | _ => false
  end.

(** The host closes the gate: [beforeReload] or [dispose]. *)
Definition is_close (ev : Event) : bool :=
  match ev with
  | EvBeforeReload | EvDispose => true
  | _ => false
  end.

Definition is_reload (ev : Event) : bool :=
  match ev with
  | EvReload _ => true
  | _ => false
  end.

(** No event of the list resumes task [tid]. *)
Definition no_resume (tid : nat) (evs : list Event) : bool :=
  forallb (λ ev, negb (is_resume tid ev)) evs.

(** No event of the list closes the gate. *)
Definition no_close (evs : list Event) : bool :=
  forallb (λ ev, negb (is_close ev)) evs.

(** The message [msg] names [s]: [s] occurs in it. *)
Definition names (msg s : string) : Prop :=
  ∃ before after, msg = before +:+ s +:+ after.

(** Whether the gate has been closed since the last [reload], that is,
    whether a [reload] coming next has its own [beforeReload]. *)
Definition cycle_closed (evs : list Event) : bool :=
  foldl (λ closed ev,
           if is_close ev then true
           else if is_reload ev then false
           else closed) false evs.

(** A plugin fresh from its constructor, in a world where nothing has
    happened yet. *)
Definition World_new (ctx_rootPath : string) (options : BindingsOptions) : World :=
  World_init (BindingsPlugin_new ctx_rootPath options).

(** Every named service of the processed bindings is mounted in [m]: the
    loop of [reload] finds nothing to throw at. *)
Definition all_mounted (m : gmap string Mount) (self : BindingsPlugin) : bool :=
  forallb (λ psb, negb (not_mounted m psb)) (processedServiceBindings self).

(** A generation of the gate that can no longer be opened: a pending
    promise that [#contextResolve] does not refer to. *)
Definition orphaned (p : nat) (w : World) : Prop :=
  promises w !! p = Some PPending ∧ contextResolve (this w) ≠ Some p.

(** ** Sample configurations *)

Definition no_options : BindingsOptions :=
  {| opt_envPath := None; opt_kWranglerBindings := None;
     opt_envPathDefaultFallback := None; opt_bindings := None;
     opt_globals := None; opt_wasmBindings := None;
     opt_serviceBindings := None |}.

(** [{ serviceBindings: { AUTH: "auth" } }] *)
Definition auth_options : BindingsOptions :=
  {| opt_envPath := None; opt_kWranglerBindings := None;
     opt_envPathDefaultFallback := None; opt_bindings := None;
     opt_globals := None; opt_wasmBindings := None;
     opt_serviceBindings := Some [("AUTH", ServiceName "auth")] |}.

Definition respond (text : string) : FetcherFetch :=
  λ _, Normal (Plain (Response_new (Some text) 200 [])).

Definition failing (how : Error → Completion (Awaitable Response)) : FetcherFetch :=
  λ _, how (JsError None "boom").

Definition mount_of (f : FetcherFetch) : Mount := {| dispatchFetch := Some f |}.

Definition auth_fetcher : Fetcher := Fetcher_new (Named "auth").

Definition sample_request : Request := Request_new (InfoUrl "http://localhost/") None.

(** A project directory [/app] whose [.env] file defines [A], and a host
    without any file. *)
Definition env_host : Host :=
  {| fs_readFile := λ p,
       if String.eqb p "/app/.env" then Normal "A=file-value"
       else Throw (JsError (Some "ENOENT") "no such file or directory");
     dotenv_parse := λ data,
       if String.eqb data "A=file-value" then {[ "A" := "file-value" ]} else ∅;
     path_resolve := λ root p, root +:+ "/" +:+ p;
     WebAssembly_validate := λ _, true |}.

Definition empty_host : Host :=
  {| fs_readFile := λ p,
       Throw (JsError (Some "ENOENT") "no such file or directory");
     dotenv_parse := λ _, ∅;
     path_resolve := λ root p, root +:+ "/" +:+ p;
     WebAssembly_validate := λ _, true |}.

(** [{ envPath: true, bindings: { A: "override" } }] *)
Definition override_options : BindingsOptions :=
  {| opt_envPath := Some (EnvFlag true); opt_kWranglerBindings := None;
     opt_envPathDefaultFallback := None;
     opt_bindings := Some {[ "A" := VString "override" ]};
     opt_globals := None; opt_wasmBindings := None;
     opt_serviceBindings := None |}.

(** Wrangler variables and custom bindings that both define [A], as objects
    with different fields. *)
Definition structured_options : BindingsOptions :=
  {| opt_envPath := None;
     opt_kWranglerBindings := Some {[ "A" := VObject [("x", VNumber 1)] ]};
     opt_envPathDefaultFallback := None;
     opt_bindings := Some {[ "A" := VObject [("y", VNumber 2)] ]};
     opt_globals := None; opt_wasmBindings := None;
     opt_serviceBindings := None |}.


(** A service binding of the name [__proto__]. *)
Definition proto_service_options : BindingsOptions :=
  {| opt_envPath := None; opt_kWranglerBindings := None;
     opt_envPathDefaultFallback := None; opt_bindings := None;
     opt_globals := None; opt_wasmBindings := None;
     opt_serviceBindings := Some [("__proto__", ServiceName "auth")] |}.



(** [{ envPath: "vars.env" }] *)
Definition env_file_options : BindingsOptions :=
  {| opt_envPath := Some (EnvFile "vars.env"); opt_kWranglerBindings := None;
     opt_envPathDefaultFallback := None; opt_bindings := None;
     opt_globals := None; opt_wasmBindings := None;
     opt_serviceBindings := None |}.

(** ** The [service] option given as [NAME=SERVICE[@ENV]]

    The strings of the command line are taken as sequences of characters,
    one per code unit. *)

(** [s.indexOf(pattern)] for the part [s] of a string that starts at
    position [i]: the first position where [pattern] occurs, or [-1]. *)
Fixpoint indexOf_from (pattern s : string) (i : Z) : Z :=
  if String.prefix pattern s then i
  else match s with
       | EmptyString => (-1)%Z
       | String _ s' => indexOf_from pattern s' (i + 1)%Z
       end.

(** [s.indexOf(pattern)] *)
Definition String_indexOf (s pattern : string) : Z := indexOf_from pattern s 0.

(** [s.substring(start, end)]: both positions are clamped to the string and
    swapped when out of order; a missing [end] is the length. *)
Definition String_substring (s : string) (start : Z) (end_ : option Z) : string :=
  let len := Z.of_nat (String.length s) in
  let clamp := λ x : Z, Z.max 0 (Z.min x len) in
  let a := clamp start in
  let b := clamp (default len end_) in
  let lo := Z.min a b in
  let hi := Z.max a b in
  String.substring (Z.to_nat lo) (Z.to_nat (hi - lo)) s.

(** The callback of [fromEntries] of the [serviceBindings] option: an entry
    [NAME=SERVICE] or [NAME=SERVICE@ENV] of the command line. *)
Definition serviceBindings_fromEntry (entry : string * string)
  : string * ServiceBindingOption :=
  let '(n, serviceEnvironment) := entry in
  let atIndex := String_indexOf serviceEnvironment "@" in
  if (atIndex =? -1)%Z then (n, ServiceName serviceEnvironment)
  else
    let svc := String_substring serviceEnvironment 0 (Some atIndex) in
    let env := String_substring serviceEnvironment (atIndex + 1) None in
    (n, ServiceObject svc (Some env)).

(** The character [c] occurs in [s]. *)
Fixpoint occurs (c : ascii) (s : string) : bool :=
  match s with
  | EmptyString => false
  | String x s' => Ascii.eqb x c || occurs c s'
  end.

(** ** Vocabulary for the further properties *)

(** No event of the list is a [reload]. *)
Definition no_reload (evs : list Event) : bool :=
  forallb (λ ev, negb (is_reload ev)) evs.

Definition is_rejected {A} (s : Settlement A) : bool :=
  match s with Rejected _ => true | _ => false end.

(** The dispatch is past the [await] of [#getServiceFetch], or was made on
    a handler function and never had one: it has called a handler, or an
    assertion has rejected it. Its promise need not have settled: the
    promise of the handler may be pending. *)
Definition is_past_getServiceFetch (t : Task) : bool :=
  match t with Settled _ => true | _ => false end.

(** The number of such dispatches. *)
Definition past_getServiceFetch_count (w : World) : nat :=
  length (List.filter is_past_getServiceFetch (tasks w)).

(** The state of the gate as [beforeReload] and [reload] keep it: the
    resolver belongs to the current promise, which is the one made last, and
    when that promise is resolved the plugin holds a mount table in which
    every named service of its bindings is mounted. *)
Definition gate_consistent (w : World) : Prop :=
  contextResolve (this w) = contextPromise (this w)
  ∧ match contextPromise (this w) with
    | Some p => S p = length (promises w)
    | None => promises w = []
    end
  ∧ ∀ p, contextPromise (this w) = Some p → is_resolved w p = true →
         ∃ m, mounts (this w) = Some m ∧ all_mounted m (this w) = true.

Section SetupVocabulary.
Context {host : Host}.

(** The env step of [setup] has nothing to throw: there is no env file in
    effect, or it can be read, or it is the default one and does not exist. *)
Definition env_loadable (self : BindingsPlugin) : bool :=
  match effective_envPath self with
  | Some p =>
      match fs_readFile (path_resolve (rootPath self) p) with
      | Normal _ => true
      | Throw e => is_ENOENT e && envPath_is_true self
      end
  | None => true
  end.

(** The file of a WebAssembly binding can be read and holds a valid
    module. *)
Definition entry_loadable (self : BindingsPlugin) (entry : string * string)
  : bool :=
  match fs_readFile (path_resolve (rootPath self) entry.2) with
  | Normal bytes => WebAssembly_validate bytes
  | Throw _ => false
  end.

Definition wasm_loadable (self : BindingsPlugin) : bool :=
  forallb (entry_loadable self) (default [] (wasmBindings self)).

End SetupVocabulary.

(** Further sample configurations. *)

(** A mount that has no [dispatchFetch]. *)
Definition mount_without_dispatch : Mount := {| dispatchFetch := None |}.

(** A host whose [.env] exists but cannot be read, and whose only other
    file is the module [/app/add.wasm]. *)
Definition locked_host : Host :=
  {| fs_readFile := λ p,
       if String.eqb p "/app/.env"
       then Throw (JsError (Some "EACCES") "permission denied")
       else if String.eqb p "/app/add.wasm" then Normal "wasm-bytes"
       else Throw (JsError (Some "ENOENT") "no such file or directory");
     dotenv_parse := λ _, ∅;
     path_resolve := λ root p, root +:+ "/" +:+ p;
     WebAssembly_validate := λ _, true |}.

(** [{ envPath: true }] *)
Definition default_env_options : BindingsOptions :=
  {| opt_envPath := Some (EnvFlag true); opt_kWranglerBindings := None;
     opt_envPathDefaultFallback := None; opt_bindings := None;
     opt_globals := None; opt_wasmBindings := None;
     opt_serviceBindings := None |}.

(** [{ wasmBindings: { ADD: "add.wasm", SUB: "sub.wasm" },
       serviceBindings: { AUTH: "auth" } }] *)
Definition wasm_options : BindingsOptions :=
  {| opt_envPath := None; opt_kWranglerBindings := None;
     opt_envPathDefaultFallback := None; opt_bindings := None;
     opt_globals := None;
     opt_wasmBindings := Some [("ADD", "add.wasm"); ("SUB", "sub.wasm")];
     opt_serviceBindings := Some [("AUTH", ServiceName "auth")] |}.

(** [{ wasmBindings: { ADD: "add.wasm" }, serviceBindings: { AUTH: "auth" } }] *)
Definition add_options : BindingsOptions :=
  {| opt_envPath := None; opt_kWranglerBindings := None;
     opt_envPathDefaultFallback := None; opt_bindings := None;
     opt_globals := None;
     opt_wasmBindings := Some [("ADD", "add.wasm")];
     opt_serviceBindings := Some [("AUTH", ServiceName "auth")] |}.

(** * Properties of [setup] *)

Section SetupProperties.
Context {host : Host}.

(** An assignment reads back under its name, and leaves the other names
    alone, for every name but [__proto__]. *)
Lemma lookup_JsObject_set (o : JsObject) (k' k : string) (v : Value) :
  k ≠ "__proto__" →
  JsObject_set o k' v !! k = if decide (k' = k) then Some v else o !! k.
Proof.
  intros Hk. unfold JsObject_set, lookup, JsObject_lookup.
  destruct (bool_decide (k' = "__proto__") && _) eqn:Hproto.
  - apply andb_true_iff in Hproto as [->%bool_decide_eq_true _].
    rewrite decide_False by done. by destruct (is_object v).
  - simpl. apply lookup_insert.
Qed.

Lemma Object_assign_empty (b : JsObject) : Object_assign b (Some ∅) = b.
Proof. apply map_fold_empty. Qed.

Lemma lookup_Object_assign (b : JsObject) (src : option Context) (k : string) :
  k ≠ "__proto__" →
  Object_assign b src !! k =
    match src ≫= (λ m, m !! k) with
    | Some v => Some v
    | None => b !! k
    end.
Proof.
  intros Hk. destruct src as [m|]; simpl; [|done].
  apply (map_fold_weak_ind
           (λ (r : JsObject) (m : gmap string Value),
              r !! k = match m !! k with Some v => Some v | None => b !! k end)).
  - by rewrite lookup_empty.
  - intros i x m' r Hi IH. rewrite lookup_JsObject_set by done.
    rewrite lookup_insert. by destruct (decide (i = k)).
Qed.

Lemma lookup_load_services (self : BindingsPlugin) (b : JsObject) (k : string) :
  k ≠ "__proto__" →
  load_services self b !! k =
    match service_source self k with
    | Some v => Some v
    | None => b !! k
    end.
Proof.
  intros Hk. unfold load_services, service_source.
  revert b. induction (processedServiceBindings self) as [|psb l IH];
    intros b; simpl; [done|].
  rewrite IH. destruct (entries_last k _); [done|].
  rewrite lookup_JsObject_set by done. by destruct (decide (name psb = k)).
Qed.

Lemma entries_last_elem_of {V} (k : string) (l : list (string * V)) (v : V) :
  entries_last k l = Some v → (k, v) ∈ l.
Proof.
  induction l as [|[k' v'] l IH]; simpl; [done|].
  destruct (entries_last k l) as [v''|].
  - intros [= ->]. right. by apply IH.
  - destruct (decide (k' = k)) as [->|]; [|done].
    intros [= ->]. left.
Qed.

(** The env step, when it does not throw, assigns the variables of the env
    file and watches its path. *)
Lemma load_env_Normal (self : BindingsPlugin) b w b' w' :
  load_env self (b, w) = Normal (b', w') →
  b' = Object_assign b (Some (env_source self)) ∧ w' = w ++ env_watch self.
Proof.
  unfold load_env, env_source, env_watch.
  destruct (effective_envPath self) as [p|]; simpl.
  - destruct (fs_readFile _) as [data|e]; simpl.
    + intros [= <- <-]. done.
    + destruct (is_ENOENT e && envPath_is_true self); simpl; [|done].
      intros [= <- <-]. split; [symmetry; apply Object_assign_empty|done].
  - intros [= <- <-].
    split; [symmetry; apply Object_assign_empty|by rewrite app_nil_r].
Qed.

(** The loop over the WebAssembly entries, when it does not throw: every
    file was read, every name holds the module of its last entry, every
    path is watched, in order. *)
Lemma load_wasm_entries_Normal (self : BindingsPlugin) entries b w b' w' :
  for_of (load_wasm_entry self) (b, w) entries = Normal (b', w') →
  (∀ k, k ≠ "__proto__" →
        b' !! k =
          match
            wasmPath ← entries_last k entries;
            match fs_readFile (path_resolve (rootPath self) wasmPath) with
            | Normal bytes => Some (VModule bytes)
            | Throw _ => None
            end
          with
          | Some v => Some v
          | None => b !! k
          end)
  ∧ w' = w ++ ((λ entry, path_resolve (rootPath self) entry.2) <$> entries)
  ∧ Forall (λ entry, ∃ bytes,
              fs_readFile (path_resolve (rootPath self) entry.2) = Normal bytes
              ∧ WebAssembly_validate bytes = true) entries.
Proof.
  revert b w. induction entries as [|[n p] l IH]; intros b w; simpl.
  - intros [= <- <-]. by rewrite app_nil_r.
  - destruct (fs_readFile (path_resolve (rootPath self) p)) as [bytes|e] eqn:Hr;
      simpl; [|done].
    unfold WebAssembly_Module.
    destruct (WebAssembly_validate bytes) eqn:Hv; simpl; [|done].
    intros Hl. apply IH in Hl as (Hb & -> & Hall).
    split_and!.
    + intros k Hk. rewrite Hb by done.
      destruct (entries_last k l) as [q|] eqn:Hq; simpl.
      { apply entries_last_elem_of in Hq.
        rewrite Forall_forall in Hall.
        destruct (Hall _ Hq) as (bytes' & Hr' & _). simpl in Hr'.
        by rewrite Hr'. }
      rewrite lookup_JsObject_set by done.
      destruct (decide (n = k)); simpl; [|done].
      by rewrite Hr.
    + by rewrite <- app_assoc.
    + constructor; [|done]. exists bytes. done.
Qed.

Lemma load_wasm_Normal (self : BindingsPlugin) b w b' w' :
  load_wasm self (b, w) = Normal (b', w') →
  (∀ k, k ≠ "__proto__" →
        b' !! k =
          match wasm_source self k with Some v => Some v | None => b !! k end)
  ∧ w' = w ++ wasm_watch self
  ∧ Forall (λ entry, ∃ bytes,
              fs_readFile (path_resolve (rootPath self) entry.2) = Normal bytes
              ∧ WebAssembly_validate bytes = true)
           (default [] (wasmBindings self)).
Proof.
  unfold load_wasm, wasm_source, wasm_watch.
  destruct (wasmBindings self) as [entries|]; simpl.
  - apply load_wasm_entries_Normal.
  - intros [= <- <-]. by rewrite app_nil_r.
Qed.

(** [setup] is the five steps in order. *)
Lemma setup_Normal (self : BindingsPlugin) (r : SetupResult) :
  setup self = Normal r →
  ∃ b2 w2 b3 w3,
    load_env self (Object_assign ∅ (kWranglerBindings self), []) = Normal (b2, w2)
    ∧ load_wasm self (b2, w2) = Normal (b3, w3)
    ∧ r = {| res_globals := globals self;
             res_bindings := Object_assign (load_services self b3) (bindings self);
             res_watch := w3 |}.
Proof.
  unfold setup.
  destruct (load_env self _) as [[b2 w2]|e] eqn:Henv; simpl; [|done].
  destruct (load_wasm self _) as [[b3 w3]|e'] eqn:Hwasm; simpl; [|done].
  intros [= <-]. by exists b2, w2, b3, w3.
Qed.


(** C9. When the env path is the default one ([envPath === true]) and
    the file does not exist, the env step throws nothing and contributes
    nothing, and [setup] returns whenever loading the WebAssembly modules
    does, with the bindings of the other four sources. When the env path is
    a given string and the file cannot be read, [setup] throws the error of
    the read. A given string is a non-empty one: the empty string is falsy,
    and [if (envPath)] then takes it for no env path at all. *)
Theorem setup_env_file_missing (self : BindingsPlugin) (e : Error) :
  (envPath self = Some (EnvFlag true) →
   fs_readFile (path_resolve (rootPath self) ".env") = Throw e →
   Error_code e = Some "ENOENT" →
   (∀ b w, load_env self (b, w)
           = Normal (b, w ++ [path_resolve (rootPath self) ".env"]))
   ∧ (∀ b3 w3,
        load_wasm self (Object_assign ∅ (kWranglerBindings self),
                        [path_resolve (rootPath self) ".env"])
          = Normal (b3, w3) →
        setup self =
          Normal {| res_globals := globals self;
                    res_bindings :=
                      Object_assign (load_services self b3) (bindings self);
                    res_watch := w3 |})
   ∧ (wasmBindings self = None → ∃ r, setup self = Normal r))
  ∧ (∀ p, envPath self = Some (EnvFile p) →
          truthy_string p = true →
          fs_readFile (path_resolve (rootPath self) p) = Throw e →
          setup self = Throw e).
Proof.
  split.
  - intros Henv Hread Hcode.
    assert (Hload : ∀ b w, load_env self (b, w)
              = Normal (b, w ++ [path_resolve (rootPath self) ".env"])).
    { intros b w. unfold load_env, effective_envPath, envPath_is_true, is_ENOENT.
      rewrite Henv. simpl. rewrite Hread, Hcode. done. }
    split_and!; [done| |].
    + intros b3 w3 Hw. unfold setup. rewrite Hload. simpl.
      by rewrite Hw.
    + intros Hnone. unfold setup. rewrite Hload. simpl.
      unfold load_wasm. rewrite Hnone. simpl. eauto.
  - intros p Henv Hp Hread. unfold setup, load_env, effective_envPath,
      envPath_is_true.
    rewrite Henv, Hp. simpl. rewrite Hread. simpl.
    by rewrite andb_false_r.
Qed.

(** C10. Whenever [setup] returns, its watch list is the resolved path
    of the env file in effect (given as a non-empty string or the default
    [.env]), whether or not that file could be read, followed by the resolved paths
    of the WebAssembly bindings in order, each of which was read
    successfully: a WebAssembly path is pushed only after its read, and a
    failed read throws out of the loop before the push. *)
Theorem setup_watch (self : BindingsPlugin) (r : SetupResult) :
  setup self = Normal r →
  res_watch r = env_watch self ++ wasm_watch self
  ∧ (∀ p, effective_envPath self = Some p →
          path_resolve (rootPath self) p ∈ res_watch r)
  ∧ (∀ n wasmPath, (n, wasmPath) ∈ default [] (wasmBindings self) →
       path_resolve (rootPath self) wasmPath ∈ res_watch r
       ∧ ∃ bytes,
           fs_readFile (path_resolve (rootPath self) wasmPath) = Normal bytes)
  ∧ (∀ acc n wasmPath e,
       fs_readFile (path_resolve (rootPath self) wasmPath) = Throw e →
       load_wasm_entry self acc (n, wasmPath) = Throw e).
Proof.
  intros Hs.
  apply setup_Normal in Hs as (b2 & w2 & b3 & w3 & Henv & Hwasm & ->).
  apply load_env_Normal in Henv as [_ ->].
  apply load_wasm_Normal in Hwasm as (_ & -> & Hall).
  simpl. split_and!; [done| | |];
    last (intros [b w] n wasmPath e Hr; simpl; by rewrite Hr).
  - intros p Hp. unfold env_watch. rewrite Hp. set_solver.
  - intros n wasmPath Hin. split.
    + apply elem_of_app. right. unfold wasm_watch.
      apply list_elem_of_fmap. by exists (n, wasmPath).
    + rewrite Forall_forall in Hall.
      destruct (Hall _ Hin) as (bytes & Hr & _). eauto.
Qed.

End SetupProperties.

(** * Properties of the reload cycle and of dispatch *)

(** ** What each operation does to the world *)

Lemma beforeReload_eq (w : World) :
  beforeReload w =
    (Normal tt,
     {| this :=
          with_contextPromise (Some (length (promises w)))
            (with_contextResolve (Some (length (promises w)))
               (with_mounts None (this w)));
        promises := promises w ++ [PPending];
        tasks := tasks w; log := log w; calls := calls w |}).
Proof. reflexivity. Qed.

(** The loop of [reload] writes nothing. *)
Lemma check_loop_world (m : gmap string Mount) (l : list ProcessedServiceBinding)
    (w : World) :
  snd (for_each (check_mounted m) l w) = w.
Proof.
  induction l as [|psb l IH]; simpl; [done|].
  unfold mbind, M_bind, check_mounted.
  destruct (service psb) as [s|f]; simpl; [|exact IH].
  destruct (bool_decide (is_Some (m !! s))); simpl; [exact IH|done].
Qed.

(** It passes when every named service is mounted. *)
Lemma check_loop_Normal (m : gmap string Mount) (l : list ProcessedServiceBinding)
    (w : World) :
  (∀ psb, psb ∈ l → not_mounted m psb = false) →
  for_each (check_mounted m) l w = (Normal tt, w).
Proof.
  induction l as [|psb l IH]; intros Hall; simpl; [done|].
  unfold mbind, M_bind.
  assert (Hpsb : not_mounted m psb = false) by (apply Hall; left).
  unfold not_mounted in Hpsb. unfold check_mounted.
  destruct (service psb) as [s|f]; simpl.
  - rewrite Hpsb. simpl. apply IH. intros psb' Hin. apply Hall. by right.
  - apply IH. intros psb' Hin. apply Hall. by right.
Qed.

(** It throws at the first binding whose named service is not mounted. *)
Lemma check_loop_Throw (m : gmap string Mount) (l : list ProcessedServiceBinding)
    (w : World) :
  (∃ psb, psb ∈ l ∧ not_mounted m psb = true) →
  ∃ psb svc,
    psb ∈ l ∧ service psb = Named svc ∧ m !! svc = None
    ∧ for_each (check_mounted m) l w =
        (Throw (MiniflareCoreError "ERR_SERVICE_NOT_MOUNTED"
                  (not_mounted_message svc (name psb))), w).
Proof.
  induction l as [|psb l IH]; intros (bad & Hin & Hbad).
  - by apply elem_of_nil in Hin.
  - simpl. unfold mbind, M_bind.
    destruct (not_mounted m psb) eqn:Hpsb.
    + unfold not_mounted in Hpsb. unfold check_mounted.
      destruct (service psb) as [s|f] eqn:Hsvc; [|done].
      exists psb, s. rewrite Hpsb. simpl. split_and!; [left|done| |done].
      apply negb_true_iff, bool_decide_eq_false in Hpsb.
      by apply eq_None_not_Some.
    + assert (Hrest : ∃ psb', psb' ∈ l ∧ not_mounted m psb' = true).
      { exists bad. split; [|done].
        apply elem_of_cons in Hin as [->|]; [congruence|done]. }
      destruct (IH Hrest) as (psb' & svc & Hin' & Hs & Hm & Heq).
      exists psb', svc. split_and!; [by right|done|done|].
      unfold not_mounted in Hpsb. unfold check_mounted.
      destruct (service psb) as [s|f]; simpl; [|exact Heq].
      rewrite Hpsb. simpl. exact Heq.
Qed.

(** [reload] when its loop throws: the error goes to the caller and the
    world is as before the call. *)
Lemma reload_loop_Throw (m : gmap string Mount) (w : World) (e : Error) :
  for_each (check_mounted m) (processedServiceBindings (this w)) w = (Throw e, w) →
  reload m w = (Throw e, w).
Proof.
  intros Heq. unfold reload, mbind, M_bind, get_this at 1. by rewrite Heq.
Qed.

(** [reload] once its loop has passed. *)
Lemma reload_checked (m : gmap string Mount) (w : World) :
  (∀ psb, psb ∈ processedServiceBindings (this w) → not_mounted m psb = false) →
  reload m w =
    match contextResolve (this w) with
    | Some p =>
        (Normal tt,
         {| this := with_mounts (Some m) (this w);
            promises := <[p := PResolved]> (promises w);
            tasks := tasks w; log := log w; calls := calls w |})
    | None =>
        (Throw (AssertionError
                  (Some "beforeReload() must be called before reload()")),
         {| this := with_mounts (Some m) (this w);
            promises := promises w;
            tasks := tasks w; log := log w; calls := calls w |})
    end.
Proof.
  intros Hall. unfold reload, mbind, M_bind, get_this at 1.
  rewrite (check_loop_Normal _ _ _ Hall). simpl.
  by destruct (contextResolve (this w)).
Qed.

(** The writes of [reload] in every case: the tasks, the log and the
    observed calls are left alone, and so are [#contextPromise] and
    [#contextResolve]. *)
Lemma reload_frame (m : gmap string Mount) (w : World) :
  let w' := snd (reload m w) in
  tasks w' = tasks w ∧ log w' = log w ∧ calls w' = calls w
  ∧ contextPromise (this w') = contextPromise (this w)
  ∧ contextResolve (this w') = contextResolve (this w)
  ∧ (promises w' = promises w
     ∨ ∃ p, contextResolve (this w) = Some p
            ∧ promises w' = <[p := PResolved]> (promises w)).
Proof.
  destruct (decide (Exists (λ psb, not_mounted m psb = true)
                      (processedServiceBindings (this w)))) as [Hbad|Hok].
  - apply Exists_exists in Hbad.
    destruct (check_loop_Throw m _ w Hbad) as (psb & svc & _ & _ & _ & Heq).
    rewrite (reload_loop_Throw _ _ _ Heq). simpl. split_and!; eauto.
  - rewrite reload_checked.
    + destruct (contextResolve (this w)) as [p|] eqn:Hp; simpl;
        rewrite ?Hp; split_and!; eauto.
    + intros psb Hin. destruct (not_mounted m psb) eqn:Hn; [|done].
      destruct Hok. apply Exists_exists. eauto.
Qed.

(** Dispatch never writes the plugin's fields, the promises or the list of
    tasks; it only appends to the log and to the observed calls. *)
Lemma Fetcher_fetch_frame (f : Fetcher) input init (w : World) :
  let w' := snd (Fetcher_fetch f input init w) in
  this w' = this w ∧ promises w' = promises w ∧ tasks w' = tasks w.
Proof.
  unfold Fetcher_fetch. destruct (Fetcher_service f) as [svc|h]; simpl.
  - unfold getServiceFetch_begin, mbind, M_bind, get_this, assert. simpl.
    by destruct (contextPromise (this w)).
  - done.
Qed.

Lemma resume_frame (t : Task) (w : World) :
  let w' := snd (resume t w) in
  this w' = this w ∧ promises w' = promises w ∧ tasks w' = tasks w.
Proof.
  destruct t as [p svc request|[fetch|e] request|s]; simpl; [| |done|done].
  - destruct (is_resolved w p); [|done].
    unfold getServiceFetch_resume, mbind, M_bind, get_this, assert. simpl.
    by destruct (lookup_dispatchFetch (this w) svc).
  - unfold fetch_contained. simpl.
    by destruct (settle (fetch request)).
Qed.

Lemma step_dispatch_frame (w : World) (ev : Event) :
  is_close ev = false → is_reload ev = false →
  this (step w ev) = this w ∧ promises (step w ev) = promises w.
Proof.
  destruct ev as [| | |f input init|tid]; try done; intros _ _; simpl.
  - pose proof (Fetcher_fetch_frame f input init w) as Hf.
    destruct (Fetcher_fetch f input init w) as [t w']. simpl in *. tauto.
  - destruct (tasks w !! tid) as [t|]; [|done].
    pose proof (resume_frame t w) as Hf.
    destruct (resume t w) as [t' w']. simpl in *. tauto.
Qed.

(** Only [beforeReload] and [dispose] write [#contextPromise] and
    [#contextResolve]. *)
Lemma step_context (w : World) (ev : Event) :
  is_close ev = false →
  contextPromise (this (step w ev)) = contextPromise (this w)
  ∧ contextResolve (this (step w ev)) = contextResolve (this w).
Proof.
  intros Hc. destruct (is_reload ev) eqn:Hr.
  - destruct ev; try done. simpl.
    pose proof (reload_frame m w) as Hf. simpl in Hf. tauto.
  - destruct (step_dispatch_frame w ev Hc Hr) as [-> _]. done.
Qed.

Lemma run_context (w : World) (evs : list Event) :
  no_close evs = true →
  contextPromise (this (run w evs)) = contextPromise (this w)
  ∧ contextResolve (this (run w evs)) = contextResolve (this w).
Proof.
  revert w. induction evs as [|ev evs IH]; intros w; simpl; [done|].
  intros [Hev Hevs]%andb_true_iff. apply negb_true_iff in Hev.
  destruct (IH (step w ev) Hevs) as [-> ->]. by apply step_context.
Qed.

(** A task is only changed by resuming it. *)
Lemma step_task_other (w : World) (ev : Event) (tid : nat) (t : Task) :
  is_resume tid ev = false →
  tasks w !! tid = Some t →
  tasks (step w ev) !! tid = Some t.
Proof.
  intros Hev Ht. destruct ev as [|m| |f input init|tid']; simpl.
  - done.
  - pose proof (reload_frame m w) as Hf. simpl in Hf.
    destruct Hf as (-> & _). done.
  - done.
  - pose proof (Fetcher_fetch_frame f input init w) as Hf.
    destruct (Fetcher_fetch f input init w) as [t' w']. simpl in *.
    destruct Hf as (_ & _ & ->). by apply lookup_app_l_Some.
  - simpl in Hev. apply bool_decide_eq_false in Hev.
    destruct (tasks w !! tid') as [t'|]; [|done].
    pose proof (resume_frame t' w) as Hf.
    destruct (resume t' w) as [t'' w']. simpl in *.
    destruct Hf as (_ & _ & ->). by rewrite list_lookup_insert_ne.
Qed.

Lemma run_task_other (w : World) (evs : list Event) (tid : nat) (t : Task) :
  no_resume tid evs = true →
  tasks w !! tid = Some t →
  tasks (run w evs) !! tid = Some t.
Proof.
  revert w. induction evs as [|ev evs IH]; intros w; simpl; [done|].
  intros [Hev Hevs]%andb_true_iff Ht. apply negb_true_iff in Hev.
  apply IH; [done|]. by apply step_task_other.
Qed.

(** Resuming a task of the list. *)
Lemma step_resume (w : World) (tid : nat) (t : Task) :
  tasks w !! tid = Some t →
  step w (EvResume tid) =
    set_tasks (<[tid := fst (resume t w)]> (tasks w)) (snd (resume t w)).
Proof.
  intros Ht. simpl. rewrite Ht.
  pose proof (resume_frame t w) as Hf.
  destruct (resume t w) as [t' w']. simpl in *.
  destruct Hf as (_ & _ & ->). done.
Qed.

Lemma step_resume_task (w : World) (tid : nat) (t : Task) :
  tasks w !! tid = Some t →
  tasks (step w (EvResume tid)) !! tid = Some (fst (resume t w)).
Proof.
  intros Ht. rewrite (step_resume _ _ _ Ht). simpl.
  apply list_lookup_insert_eq. by eapply lookup_lt_Some.
Qed.

Lemma append_assoc (a b c : string) : (a +:+ b) +:+ c = a +:+ b +:+ c.
Proof.
  induction a as [|x a IH]; [done|].
  change (String x ((a +:+ b) +:+ c) = String x (a +:+ b +:+ c)).
  by rewrite IH.
Qed.

Lemma not_mounted_message_names (svc n : string) :
  names (not_mounted_message svc n) (dq +:+ svc +:+ dq)
  ∧ names (not_mounted_message svc n) (dq +:+ n +:+ dq).
Proof.
  unfold names, not_mounted_message. split.
  - exists "Service ". eexists. rewrite !append_assoc. reflexivity.
  - exists ("Service " +:+ dq +:+ svc +:+ dq +:+ " for binding "). eexists.
    rewrite !append_assoc. reflexivity.
Qed.

Lemma all_mounted_not_mounted (m : gmap string Mount) (self : BindingsPlugin) :
  all_mounted m self = true →
  ∀ psb, psb ∈ processedServiceBindings self → not_mounted m psb = false.
Proof.
  unfold all_mounted. rewrite forallb_forall. intros Hall psb Hin.
  apply negb_true_iff, Hall. by apply list_elem_of_In.
Qed.

Lemma not_all_mounted (m : gmap string Mount) (self : BindingsPlugin) :
  all_mounted m self = false →
  ∃ psb, psb ∈ processedServiceBindings self ∧ not_mounted m psb = true.
Proof.
  unfold all_mounted.
  induction (processedServiceBindings self) as [|psb l IH]; simpl; [done|].
  destruct (not_mounted m psb) eqn:Hn; simpl.
  - intros _. exists psb. split; [left|done].
  - intros (psb' & Hin & Hn')%IH. exists psb'. split; [by right|done].
Qed.

(** A settled task stays as it is. *)
Lemma step_task_settled (w : World) (ev : Event) (tid : nat)
    (s : Settlement Response) :
  tasks w !! tid = Some (Settled s) →
  tasks (step w ev) !! tid = Some (Settled s).
Proof.
  intros Ht. destruct (is_resume tid ev) eqn:Hev.
  - destruct ev; try done. simpl in Hev.
    apply bool_decide_eq_true in Hev as ->.
    by rewrite (step_resume_task _ _ _ Ht).
  - by apply step_task_other.
Qed.

Lemma run_task_settled (w : World) (evs : list Event) (tid : nat)
    (s : Settlement Response) :
  tasks w !! tid = Some (Settled s) →
  tasks (run w evs) !! tid = Some (Settled s).
Proof.
  revert w. induction evs as [|ev evs IH]; intros w Ht; simpl; [done|].
  apply IH. by apply step_task_settled.
Qed.

(** ** The orphaned generation *)

Lemma beforeReload_orphans (p : nat) (w : World) :
  promises w !! p = Some PPending → orphaned p (step w EvBeforeReload).
Proof.
  intros Hp. simpl. split.
  - by apply lookup_app_l_Some.
  - simpl. intros [= Heq]. apply lookup_lt_Some in Hp. lia.
Qed.

Lemma orphaned_step (p : nat) (w : World) (ev : Event) :
  orphaned p w → orphaned p (step w ev).
Proof.
  intros [Hp Hr]. destruct (is_close ev) eqn:Hc.
  - assert (step w ev = step w EvBeforeReload) as -> by (by destruct ev).
    by apply beforeReload_orphans.
  - destruct (step_context w ev Hc) as [_ Hres].
    split; [|by rewrite Hres].
    destruct (is_reload ev) eqn:Hrl.
    + destruct ev; try done. simpl.
      pose proof (reload_frame m w) as Hf. simpl in Hf.
      destruct Hf as (_ & _ & _ & _ & _ & [-> | (q & Hq & ->)]); [done|].
      rewrite list_lookup_insert_ne; [done|]. congruence.
    + by destruct (step_dispatch_frame w ev Hc Hrl) as [_ ->].
Qed.

Lemma orphaned_task_step (p : nat) (w : World) (ev : Event) (tid : nat)
    (svc : string) (request : Request) :
  promises w !! p = Some PPending →
  tasks w !! tid = Some (AwaitContext p svc request) →
  tasks (step w ev) !! tid = Some (AwaitContext p svc request).
Proof.
  intros Hp Ht. destruct (is_resume tid ev) eqn:Hev.
  - destruct ev; try done. simpl in Hev.
    apply bool_decide_eq_true in Hev as ->.
    rewrite (step_resume_task _ _ _ Ht). simpl.
    unfold is_resolved. by rewrite Hp.
  - by apply step_task_other.
Qed.

Lemma orphaned_run (p : nat) (w : World) (evs : list Event) :
  orphaned p w →
  orphaned p (run w evs)
  ∧ ∀ tid svc request,
      tasks w !! tid = Some (AwaitContext p svc request) →
      tasks (run w evs) !! tid = Some (AwaitContext p svc request).
Proof.
  revert w. induction evs as [|ev evs IH]; intros w Ho; simpl; [done|].
  destruct (IH (step w ev) (orphaned_step _ _ ev Ho)) as [Ho' Ht'].
  split; [done|]. intros tid svc request Ht.
  apply Ht'. apply orphaned_task_step; [|done]. by destruct Ho.
Qed.

(** ** The claims about the reload cycle *)

(** C1. A dispatch to a named service that is suspended on the gate
    takes its entry point from the mount table the plugin holds when it
    resumes, whatever happened since it was issued: after any events that do
    not resume it, resuming it on a resolved promise completes
    [#getServiceFetch] with the [dispatchFetch] found in [#mounts] at that
    moment, and when the dispatch continues it invokes exactly that entry
    point with its request. *)
Theorem dispatch_uses_mounts_at_resumption (w : World) (tid p : nat)
    (svc : string) (request : Request) (evs1 evs2 : list Event) :
  tasks w !! tid = Some (AwaitContext p svc request) →
  no_resume tid evs1 = true →
  no_resume tid evs2 = true →
  let w1 := run w evs1 in
  is_resolved w1 p = true →
  let w2 := step w1 (EvResume tid) in
  let w3 := run w2 evs2 in
  let w4 := step w3 (EvResume tid) in
  tasks w2 !! tid =
    Some (AwaitServiceFetch
            match lookup_dispatchFetch (this w1) svc with
            | Some fetch => Normal fetch
            | None => Throw (AssertionError None)
            end request)
  ∧ ∀ fetch, lookup_dispatchFetch (this w1) svc = Some fetch →
      calls w4 = calls w3 ++ [(fetch, request)]
      ∧ tasks w4 !! tid = Some (Settled (fst (fetch_contained fetch request w3))).
Proof.
  intros Ht Hevs1 Hevs2 w1 Hres w2 w3 w4.
  assert (Ht1 : tasks w1 !! tid = Some (AwaitContext p svc request))
    by (by apply run_task_other).
  assert (Ht2 : tasks w2 !! tid =
            Some (AwaitServiceFetch
                    match lookup_dispatchFetch (this w1) svc with
                    | Some fetch => Normal fetch
                    | None => Throw (AssertionError None)
                    end request)).
  { unfold w2. rewrite (step_resume_task _ _ _ Ht1). simpl. rewrite Hres.
    unfold getServiceFetch_resume, mbind, M_bind, get_this, assert. simpl.
    by destruct (lookup_dispatchFetch (this w1) svc). }
  split; [done|]. intros fetch Hfetch. rewrite Hfetch in Ht2.
  assert (Ht3 : tasks w3 !! tid = Some (AwaitServiceFetch (Normal fetch) request))
    by (by apply run_task_other).
  unfold w4. split.
  - rewrite (step_resume _ _ _ Ht3). simpl. unfold fetch_contained. simpl.
    by destruct (settle (fetch request)).
  - rewrite (step_resume_task _ _ _ Ht3). simpl.
    by destruct (fetch_contained fetch request w3).
Qed.

(** C2. When some processed binding names a service that is not a key of
    the mount table given to [reload], [reload] throws a
    [MiniflareCoreError] with code [ERR_SERVICE_NOT_MOUNTED] whose message
    names such a binding and its service, both in quotes. The throw is that
    of the call itself and leaves the world as it was: no promise is
    resolved and [#mounts] is not assigned. A dispatch that does not find
    its service fails an assertion instead. *)
Theorem reload_service_not_mounted (m : gmap string Mount) (w : World) :
  (∃ psb svc, psb ∈ processedServiceBindings (this w)
              ∧ service psb = Named svc ∧ m !! svc = None) →
  (∃ psb svc,
     psb ∈ processedServiceBindings (this w)
     ∧ service psb = Named svc ∧ m !! svc = None
     ∧ reload m w =
         (Throw (MiniflareCoreError "ERR_SERVICE_NOT_MOUNTED"
                   (not_mounted_message svc (name psb))), w)
     ∧ names (not_mounted_message svc (name psb)) (dq +:+ name psb +:+ dq)
     ∧ names (not_mounted_message svc (name psb)) (dq +:+ svc +:+ dq))
  ∧ promises (snd (reload m w)) = promises w
  ∧ mounts (this (snd (reload m w))) = mounts (this w)
  ∧ step w (EvReload m) = w
  ∧ ∀ svc w', lookup_dispatchFetch (this w') svc = None →
      fst (getServiceFetch_resume svc w') = Throw (AssertionError None).
Proof.
  intros (bad & s & Hin & Hs & Hm).
  assert (Hbad : ∃ psb, psb ∈ processedServiceBindings (this w)
                        ∧ not_mounted m psb = true).
  { exists bad. split; [done|]. unfold not_mounted. rewrite Hs, Hm.
    apply negb_true_iff, bool_decide_eq_false. by intros [? ?]. }
  destruct (check_loop_Throw m _ w Hbad) as (psb & svc & Hin' & Hs' & Hm' & Heq).
  apply reload_loop_Throw in Heq.
  split_and!.
  - exists psb, svc.
    destruct (not_mounted_message_names svc (name psb)) as [Hsvc Hname].
    split_and!; done.
  - by rewrite Heq.
  - by rewrite Heq.
  - simpl. by rewrite Heq.
  - intros svc' w' Hnone.
    unfold getServiceFetch_resume, mbind, M_bind, get_this, assert. simpl.
    by rewrite Hnone.
Qed.

(** C3. When a dispatch to a named service invokes the entry point and the
    call throws or its promise is rejected, the promise of [fetch] is not
    rejected: it is fulfilled with the response of status 500 carrying the
    header [CF-Worker-Status: exception], and the error is passed to the
    log, the only place where it appears. *)
Theorem named_fetch_contains_failure (w : World) (tid : nat)
    (fetch : FetcherFetch) (request : Request) (e : Error) :
  tasks w !! tid = Some (AwaitServiceFetch (Normal fetch) request) →
  fetch request = Throw e ∨ fetch request = Normal (Promised (Rejected e)) →
  let w' := step w (EvResume tid) in
  tasks w' !! tid = Some (Settled (Fulfilled exception_response))
  ∧ status exception_response = 500%Z
  ∧ headers exception_response = [("CF-Worker-Status", "exception")]
  ∧ log w' = log w ++ [e]
  ∧ calls w' = calls w ++ [(fetch, request)].
Proof.
  intros Ht Hfail w'.
  assert (Hs : settle (fetch request) = Rejected e)
    by (by destruct Hfail as [-> | ->]).
  unfold w'. rewrite (step_resume_task _ _ _ Ht), (step_resume _ _ _ Ht).
  simpl. unfold fetch_contained. simpl. by rewrite Hs.
Qed.

(** C6. On a plugin on which neither [beforeReload] nor [dispose] has run,
    a dispatch to a named service fails the assertion of
    [#getServiceFetch] at the call: the promise of [fetch] is rejected with
    that [AssertionError], no handler is invoked and nothing is logged, so
    the caller gets neither a response nor the contained 500 response. *)
Theorem fetch_before_beforeReload (root : string) (options : BindingsOptions)
    (evs mid : list Event) (svc : string) (input : RequestInfo)
    (init : option RequestInit) :
  no_close evs = true →
  let w := run (World_new root options) evs in
  let tid := length (tasks w) in
  no_resume tid mid = true →
  let failure :=
    AssertionError
      (Some "beforeReload() must be called before #getServiceFetch()") in
  let w1 := step w (EvFetch (Fetcher_new (Named svc)) input init) in
  let w2 := run w1 mid in
  let w3 := step w2 (EvResume tid) in
  tasks w1 !! tid
    = Some (AwaitServiceFetch (Throw failure) (Request_new input init))
  ∧ tasks w3 !! tid = Some (Settled (Rejected failure))
  ∧ log w1 = log w ∧ calls w1 = calls w
  ∧ log w3 = log w2 ∧ calls w3 = calls w2.
Proof.
  intros Hevs w tid Hmid failure w1 w2 w3.
  destruct (run_context (World_new root options) evs Hevs) as [Hp _].
  simpl in Hp. fold w in Hp.
  assert (Hw1 : w1 = set_tasks
            (tasks w ++ [AwaitServiceFetch (Throw failure) (Request_new input init)])
            w).
  { unfold w1. simpl. unfold Fetcher_fetch. simpl.
    unfold getServiceFetch_begin, mbind, M_bind, get_this, assert. simpl.
    by rewrite Hp. }
  assert (Ht1 : tasks w1 !! tid
            = Some (AwaitServiceFetch (Throw failure) (Request_new input init))).
  { rewrite Hw1. simpl. unfold tid. by rewrite lookup_app_r, Nat.sub_diag. }
  assert (Ht2 : tasks w2 !! tid
            = Some (AwaitServiceFetch (Throw failure) (Request_new input init)))
    by (by apply run_task_other).
  split_and!; [done| | | | |].
  - unfold w3. by rewrite (step_resume_task _ _ _ Ht2).
  - by rewrite Hw1.
  - by rewrite Hw1.
  - unfold w3. by rewrite (step_resume _ _ _ Ht2).
  - unfold w3. by rewrite (step_resume _ _ _ Ht2).
Qed.

(** C7. A dispatch through a fetcher that wraps a handler function calls
    the handler at once with the new request and settles as the call does:
    a returned response or promise is passed on as it is, a thrown error or
    rejection rejects [fetch] with the same error, nothing is logged and no
    500 response is made. The dispatch is settled by the call itself, in
    every world, reads and writes nothing of the reload cycle, and no later
    event changes it. *)
Theorem custom_fetch_direct (w : World) (h : FetcherFetch)
    (input : RequestInfo) (init : option RequestInit) (evs : list Event) :
  let request := Request_new input init in
  let w' := step w (EvFetch (Fetcher_new (Custom h)) input init) in
  tasks w' = tasks w ++ [Settled (settle (h request))]
  ∧ calls w' = calls w ++ [(h, request)]
  ∧ log w' = log w ∧ this w' = this w ∧ promises w' = promises w
  ∧ tasks (run w' evs) !! length (tasks w) = Some (Settled (settle (h request)))
  ∧ (∀ r : Response, settle (Normal (Plain r)) = Fulfilled r)
  ∧ (∀ s : Settlement Response, settle (Normal (Promised s)) = s)
  ∧ (∀ e, settle (A := Response) (Throw e) = Rejected e).
Proof.
  intros request w'. split_and!; try done.
  apply run_task_settled. simpl.
  by rewrite lookup_app_r, Nat.sub_diag.
Qed.

(** C8. A wait on a generation of the gate that is closed again before it
    was opened is never resolved: when [beforeReload] runs while promise
    [p] is still pending, then after any further events, [reload]s included,
    [p] is still pending and every dispatch suspended on [p] is still
    suspended. A [reload] resolves at most the promise that
    [#contextResolve] refers to when it is called. *)
Theorem orphaned_wait_never_resolved (w : World) (p : nat) (evs : list Event) :
  promises w !! p = Some PPending →
  let w' := run (step w EvBeforeReload) evs in
  promises w' !! p = Some PPending
  ∧ is_resolved w' p = false
  ∧ (∀ tid svc request,
       tasks w !! tid = Some (AwaitContext p svc request) →
       tasks w' !! tid = Some (AwaitContext p svc request))
  ∧ (∀ w0 m q,
       promises (step w0 (EvReload m)) !! q ≠ promises w0 !! q →
       contextResolve (this w0) = Some q).
Proof.
  intros Hp w'.
  destruct (orphaned_run p _ evs (beforeReload_orphans p w Hp)) as [[Hp' _] Ht'].
  split_and!.
  - done.
  - unfold is_resolved, w'. by rewrite Hp'.
  - intros tid svc request Ht. apply Ht'. by apply step_task_other.
  - intros w0 m q Hne. simpl in Hne.
    pose proof (reload_frame m w0) as Hf. simpl in Hf.
    destruct Hf as (_ & _ & _ & _ & _ & [Heq | (q' & Hq' & Heq)]);
      rewrite Heq in Hne; [done|].
    destruct (decide (q' = q)) as [->|Hq]; [done|].
    by rewrite list_lookup_insert_ne in Hne.
Qed.

(** C5, as the code has it. On a plugin on which neither [beforeReload]
    nor [dispose] has run, [reload] throws: the [AssertionError] saying that
    [beforeReload()] must be called before [reload()] when every named
    service is mounted, and otherwise the error of the unmounted service.
    The assertion looks at whether [#contextResolve] is set, not at the
    cycle: wherever it is set and every named service is mounted, [reload]
    returns. *)
Theorem reload_before_any_beforeReload (root : string)
    (options : BindingsOptions) (evs : list Event) (m : gmap string Mount) :
  no_close evs = true →
  let w := run (World_new root options) evs in
  (∃ e, fst (reload m w) = Throw e)
  ∧ (all_mounted m (this w) = true →
     fst (reload m w) =
       Throw (AssertionError
                (Some "beforeReload() must be called before reload()")))
  ∧ (∀ w0, is_Some (contextResolve (this w0)) →
           all_mounted m (this w0) = true →
           fst (reload m w0) = Normal tt).
Proof.
  intros Hevs w.
  destruct (run_context (World_new root options) evs Hevs) as [_ Hr].
  simpl in Hr. fold w in Hr.
  assert (Hassert : all_mounted m (this w) = true →
            fst (reload m w) =
              Throw (AssertionError
                       (Some "beforeReload() must be called before reload()"))).
  { intros Hall. rewrite reload_checked by (by apply all_mounted_not_mounted).
    by rewrite Hr. }
  split_and!; [|done|].
  - destruct (all_mounted m (this w)) eqn:Hall; [eauto|].
    assert (Hbad : ∃ psb, psb ∈ processedServiceBindings (this w)
                          ∧ not_mounted m psb = true).
    { by apply not_all_mounted. }
    destruct (check_loop_Throw m _ w Hbad) as (psb & svc & _ & _ & _ & Heq).
    rewrite (reload_loop_Throw _ _ _ Heq). eauto.
  - intros w0 [p Hp] Hall.
    rewrite reload_checked by (by apply all_mounted_not_mounted).
    by rewrite Hp.
Qed.

(** ** The claims on sample runs *)

(** C5 fails as stated: after a first cycle, a second [reload] that has no
    [beforeReload] of its own returns normally. *)
Lemma reload_without_new_beforeReload_returns :
  cycle_closed [EvBeforeReload; EvReload ∅] = false
  ∧ fst (reload ∅ (run (World_new "/app" no_options) [EvBeforeReload; EvReload ∅]))
    = Normal tt.
Proof. split; reflexivity. Qed.

(** The scenario of C1: a first cycle mounts [H1], the dispatch suspends, a
    second cycle mounts [H2], and the dispatch invokes [H2] only. *)
Lemma dispatch_uses_mounts_at_resumption_witness :
  let w := run (World_new "/app" auth_options)
             [EvBeforeReload;
              EvReload {[ "auth" := mount_of (respond "H1") ]};
              EvFetch auth_fetcher (InfoUrl "http://localhost/") None] in
  let w1 := run w [EvBeforeReload;
                   EvReload {[ "auth" := mount_of (respond "H2") ]}] in
  let w2 := step w1 (EvResume 0) in
  let w3 := run w2 [] in
  let w4 := step w3 (EvResume 0) in
  (tasks w !! 0 = Some (AwaitContext 0 "auth" sample_request)
   ∧ is_resolved w1 0 = true
   ∧ lookup_dispatchFetch (this w1) "auth" = Some (respond "H2"))
  ∧ (calls w4 = calls w3 ++ [(respond "H2", sample_request)]
     ∧ tasks w4 !! 0
       = Some (Settled (fst (fetch_contained (respond "H2") sample_request w3))))
  ∧ (calls w4 = [(respond "H2", sample_request)]
     ∧ tasks w4 !! 0
       = Some (Settled (Fulfilled (Response_new (Some "H2") 200 [])))).
Proof.
  intros w w1 w2 w3 w4.
  assert (Ht : tasks w !! 0 = Some (AwaitContext 0 "auth" sample_request))
    by (vm_compute; reflexivity).
  assert (Hr : is_resolved w1 0 = true) by (vm_compute; reflexivity).
  assert (Hf : lookup_dispatchFetch (this w1) "auth" = Some (respond "H2"))
    by (vm_compute; reflexivity).
  destruct (dispatch_uses_mounts_at_resumption w 0 0 "auth" sample_request
              [EvBeforeReload; EvReload {[ "auth" := mount_of (respond "H2") ]}]
              [] Ht eq_refl eq_refl Hr) as [_ H].
  destruct (H _ Hf) as [Hcalls Htask].
  split_and!;
    [exact Ht|exact Hr|exact Hf|exact Hcalls|exact Htask
    |vm_compute; reflexivity..].
Defined.

Lemma reload_service_not_mounted_witness :
  let w := run (World_new "/app" auth_options) [EvBeforeReload] in
  (∃ psb svc, psb ∈ processedServiceBindings (this w)
              ∧ service psb = Named svc
              ∧ (∅ : gmap string Mount) !! svc = None)
  ∧ (promises (snd (reload ∅ w)) = promises w
     ∧ mounts (this (snd (reload ∅ w))) = mounts (this w)
     ∧ step w (EvReload ∅) = w)
  ∧ reload ∅ w =
      (Throw (MiniflareCoreError "ERR_SERVICE_NOT_MOUNTED"
                (not_mounted_message "auth" "AUTH")), w).
Proof.
  intros w.
  assert (Hbad : ∃ psb svc, psb ∈ processedServiceBindings (this w)
                            ∧ service psb = Named svc
                            ∧ (∅ : gmap string Mount) !! svc = None).
  { exists {| name := "AUTH"; service := Named "auth";
              environment := "production" |}, "auth".
    split_and!; [left|reflexivity|reflexivity]. }
  destruct (reload_service_not_mounted ∅ w Hbad) as (_ & Hp & Hm & Hs & _).
  split_and!; [exact Hbad|exact Hp|exact Hm|exact Hs|vm_compute; reflexivity].
Defined.

Lemma named_fetch_contains_failure_witness :
  let w := run (World_new "/app" auth_options)
             [EvBeforeReload;
              EvReload {[ "auth" := mount_of (failing Throw) ]};
              EvFetch auth_fetcher (InfoUrl "http://localhost/") None;
              EvResume 0] in
  let w' := step w (EvResume 0) in
  tasks w !! 0 = Some (AwaitServiceFetch (Normal (failing Throw)) sample_request)
  ∧ (tasks w' !! 0 = Some (Settled (Fulfilled exception_response))
     ∧ log w' = log w ++ [JsError None "boom"])
  ∧ log w' = [JsError None "boom"].
Proof.
  intros w w'.
  assert (Ht0 : tasks w !! 0
            = Some (AwaitServiceFetch (Normal (failing Throw)) sample_request))
    by (vm_compute; reflexivity).
  destruct (named_fetch_contains_failure w 0 (failing Throw) sample_request
              (JsError None "boom") Ht0 (or_introl eq_refl))
    as (Ht & _ & _ & Hlog & _).
  split_and!; [exact Ht0|exact Ht|exact Hlog|vm_compute; reflexivity].
Defined.

Lemma reload_before_any_beforeReload_witness :
  let w := run (World_new "/app" auth_options)
             [EvFetch auth_fetcher (InfoUrl "http://localhost/") None] in
  let m : gmap string Mount := {[ "auth" := mount_of (respond "H1") ]} in
  all_mounted m (this w) = true
  ∧ fst (reload m w)
    = Throw (AssertionError (Some "beforeReload() must be called before reload()")).
Proof.
  intros w m.
  assert (Hall : all_mounted m (this w) = true) by (vm_compute; reflexivity).
  destruct (reload_before_any_beforeReload "/app" auth_options
              [EvFetch auth_fetcher (InfoUrl "http://localhost/") None]
              m eq_refl) as (_ & H & _).
  split; [exact Hall|exact (H Hall)].
Defined.

Lemma fetch_before_beforeReload_witness :
  let w := run (World_new "/app" auth_options)
             [EvReload {[ "auth" := mount_of (respond "H1") ]}] in
  let tid := length (tasks w) in
  let w1 := step w (EvFetch auth_fetcher (InfoUrl "http://localhost/") None) in
  let w2 := run w1 [EvReload {[ "auth" := mount_of (respond "H1") ]}] in
  let w3 := step w2 (EvResume tid) in
  tasks w3 !! tid
    = Some (Settled (Rejected (AssertionError
              (Some "beforeReload() must be called before #getServiceFetch()"))))
  ∧ log w3 = log w2 ∧ calls w3 = calls w2
  ∧ log w3 = [] ∧ calls w3 = [].
Proof.
  intros w tid w1 w2 w3.
  destruct (fetch_before_beforeReload "/app" auth_options
              [EvReload {[ "auth" := mount_of (respond "H1") ]}]
              [EvReload {[ "auth" := mount_of (respond "H1") ]}]
              "auth" (InfoUrl "http://localhost/") None eq_refl eq_refl)
    as (_ & Ht & _ & _ & Hlog & Hcalls).
  split_and!; [exact Ht|exact Hlog|exact Hcalls|vm_compute; reflexivity..].
Defined.

Lemma orphaned_wait_never_resolved_witness :
  let w := run (World_new "/app" auth_options)
             [EvBeforeReload;
              EvFetch auth_fetcher (InfoUrl "http://localhost/") None] in
  let w' := run (step w EvBeforeReload)
              [EvReload {[ "auth" := mount_of (respond "H1") ]};
               EvResume 0; EvResume 0] in
  (promises w !! 0 = Some PPending
   ∧ tasks w !! 0 = Some (AwaitContext 0 "auth" sample_request))
  ∧ (promises w' !! 0 = Some PPending
     ∧ tasks w' !! 0 = Some (AwaitContext 0 "auth" sample_request))
  ∧ promises w' = [PPending; PResolved].
Proof.
  intros w w'.
  assert (Hp : promises w !! 0 = Some PPending) by (vm_compute; reflexivity).
  assert (Ht0 : tasks w !! 0 = Some (AwaitContext 0 "auth" sample_request))
    by (vm_compute; reflexivity).
  destruct (orphaned_wait_never_resolved w 0
              [EvReload {[ "auth" := mount_of (respond "H1") ]};
               EvResume 0; EvResume 0] Hp) as (Hp' & _ & Ht & _).
  split_and!; [exact Hp|exact Ht0|exact Hp'|exact (Ht _ _ _ Ht0)|].
  vm_compute. reflexivity.
Defined.


(** A service binding of that name becomes the prototype of the bindings
    and no binding. *)
Example setup_proto_service_sets_prototype :
  setup (host := empty_host) (BindingsPlugin_new "/app" proto_service_options)
  = Normal {| res_globals := None;
              res_bindings := {| own := ∅;
                                 prototype := Some (VFetcher auth_fetcher) |};
              res_watch := [] |}.
Proof. vm_compute. reflexivity. Qed.


(** The value of the higher source replaces the lower one whole: the
    fields of the two objects are not merged. *)
Example setup_overwrites_whole_value :
  match setup (host := empty_host) (BindingsPlugin_new "/app" structured_options) with
  | Normal r => res_bindings r !! "A"
  | Throw _ => None
  end = Some (VObject [("y", VNumber 2)]).
Proof. vm_compute. reflexivity. Qed.

Lemma setup_env_file_missing_witness :
  (let self := BindingsPlugin_new "/app" override_options in
   setup (host := empty_host) self
   = Normal {| res_globals := globals self;
               res_bindings :=
                 Object_assign (load_services self ∅) (bindings self);
               res_watch :=
                 [path_resolve (Host := empty_host) (rootPath self) ".env"] |})
  ∧ (let self := BindingsPlugin_new "/app" env_file_options in
     setup (host := empty_host) self
     = Throw (JsError (Some "ENOENT") "no such file or directory")).
Proof.
  split; intros self.
  - destruct (setup_env_file_missing (host := empty_host) self
                (JsError (Some "ENOENT") "no such file or directory"))
      as [Hdefault _].
    destruct Hdefault as (_ & Hsetup & _); [vm_compute; reflexivity..|].
    apply Hsetup. vm_compute. reflexivity.
  - destruct (setup_env_file_missing (host := empty_host) self
                (JsError (Some "ENOENT") "no such file or directory"))
      as [_ Hfile].
    apply (Hfile "vars.env"); vm_compute; reflexivity.
Defined.

Lemma setup_watch_witness :
  let self := BindingsPlugin_new "/app" override_options in
  let r := {| res_globals := None;
              res_bindings := {| own := {[ "A" := VString "override" ]};
                                 prototype := None |};
              res_watch := ["/app/.env"] |} in
  setup (host := empty_host) self = Normal r
  ∧ res_watch r = env_watch (host := empty_host) self
                  ++ wasm_watch (host := empty_host) self
  ∧ path_resolve (Host := empty_host) (rootPath self) ".env" ∈ res_watch r.
Proof.
  intros self r.
  assert (Hs : setup (host := empty_host) self = Normal r)
    by (vm_compute; reflexivity).
  destruct (setup_watch (host := empty_host) self r Hs) as (Hw & Henv & _).
  split_and!; [exact Hs|exact Hw|].
  apply (Henv ".env"). vm_compute. reflexivity.
Defined.

(** * Further properties *)

(** ** The command-line form of a service binding *)

Lemma string_app_length (a b : string) :
  String.length (a +:+ b) = String.length a + String.length b.
Proof.
  induction a as [|x a IH]; [done|].
  change (S (String.length (a +:+ b)) = S (String.length a + String.length b)).
  by rewrite IH.
Qed.

Lemma substring_app_l (a b : string) :
  String.substring 0 (String.length a) (a +:+ b) = a.
Proof.
  induction a as [|x a IH].
  - by destruct b.
  - change (String x (String.substring 0 (String.length a) (a +:+ b))
            = String x a).
    by rewrite IH.
Qed.

Lemma substring_all (b : string) :
  String.substring 0 (String.length b) b = b.
Proof.
  induction b as [|x b IH]; [done|]. simpl. by rewrite IH.
Qed.

Lemma substring_app_r (a b : string) :
  String.substring (String.length a) (String.length b) (a +:+ b) = b.
Proof.
  induction a as [|x a IH].
  - apply substring_all.
  - exact IH.
Qed.

Lemma indexOf_from_absent (c : ascii) (s : string) (i : Z) :
  occurs c s = false → indexOf_from (String c "") s i = (-1)%Z.
Proof.
  revert i. induction s as [|x s IH]; intros i; simpl; [done|].
  intros [Hx Hs]%orb_false_iff. apply Ascii.eqb_neq in Hx.
  destruct (ascii_dec c x) as [->|_]; [done|]. by apply IH.
Qed.

Lemma indexOf_from_first (c : ascii) (a b : string) (i : Z) :
  occurs c a = false →
  indexOf_from (String c "") (a +:+ String c b) i
  = (i + Z.of_nat (String.length a))%Z.
Proof.
  revert i. induction a as [|x a IH]; intros i.
  - intros _. change (String.append "" (String c b)) with (String c b).
    simpl. destruct (ascii_dec c c); [|done]. destruct b; simpl; lia.
  - intros [Hx Ha]%orb_false_iff. apply Ascii.eqb_neq in Hx.
    change (String.append (String x a) (String c b))
      with (String x (a +:+ String c b)).
    simpl. destruct (ascii_dec c x) as [->|_]; [done|].
    rewrite IH by done. lia.
Qed.

(** Every string has no [c] or splits at its first [c]. *)
Lemma string_split_first (c : ascii) (s : string) :
  occurs c s = false
  ∨ ∃ a b, occurs c a = false ∧ s = a +:+ String c b.
Proof.
  induction s as [|x s IH]; [by left|].
  destruct (Ascii.eqb x c) eqn:Hx.
  - apply Ascii.eqb_eq in Hx as ->. right. by exists "", s.
  - destruct IH as [Hs|(a & b & Ha & ->)].
    + left. simpl. by rewrite Hx.
    + right. exists (String x a), b. split; [|done]. simpl. by rewrite Hx.
Qed.

(** [NAME=SERVICE], with no [@] in it: the option is the service name
    itself. *)
Lemma fromEntry_plain (n s : string) :
  occurs "@" s = false →
  serviceBindings_fromEntry (n, s) = (n, ServiceName s).
Proof.
  intros Hs. unfold serviceBindings_fromEntry, String_indexOf.
  by rewrite indexOf_from_absent.
Qed.

Lemma fromEntry_at (n svc env : string) :
  occurs "@" svc = false →
  serviceBindings_fromEntry (n, svc +:+ "@" +:+ env)
  = (n, ServiceObject svc (Some env)).
Proof.
  intros Hs. unfold serviceBindings_fromEntry, String_indexOf.
  change ("@" +:+ env) with (String "@" env).
  rewrite indexOf_from_first by done.
  destruct (0 + Z.of_nat (String.length svc) =? -1)%Z eqn:Hi;
    [apply Z.eqb_eq in Hi; lia|].
  unfold String_substring. simpl default.
  rewrite string_app_length.
  change (String.length (String "@" env)) with (S (String.length env)).
  f_equal. f_equal; [|f_equal].
  - replace (Z.to_nat (Z.min _ _)) with 0 by lia.
    replace (Z.to_nat _) with (String.length svc) by lia.
    apply substring_app_l.
  - replace (Z.to_nat (Z.min _ _)) with (String.length (svc +:+ "@")).
    2: { rewrite string_app_length. simpl. lia. }
    replace (Z.to_nat _) with (String.length env) by lia.
    change (String "@" env) with ("@" +:+ env).
    rewrite <- append_assoc. apply substring_app_r.
Qed.

(** [NAME=SERVICE@ENV] is split at the first [@]: what precedes it is the
    service, all that follows it, further [@]s included, is the
    environment. *)
Theorem fromEntry_split (n svc env : string) :
  occurs "@" svc = false →
  serviceBindings_fromEntry (n, svc +:+ "@" +:+ env)
  = (n, ServiceObject svc (Some env)).
Proof. apply fromEntry_at. Qed.

(** Whatever is given on the command line, the processed binding targets a
    named service, never a handler function, keeps the name of the entry,
    and has a non-empty environment: [production] when no [@] is given or
    nothing follows the first [@], and what follows the first [@]
    otherwise. *)
Theorem fromEntry_processed (n s : string) :
  let psb := process_binding (serviceBindings_fromEntry (n, s)) in
  name psb = n
  ∧ environment psb ≠ ""
  ∧ ((occurs "@" s = false
      ∧ service psb = Named s ∧ environment psb = "production")
     ∨ (∃ svc env,
          occurs "@" svc = false ∧ s = svc +:+ "@" +:+ env
          ∧ service psb = Named svc
          ∧ environment psb = if truthy_string env then env else "production")).
Proof.
  destruct (string_split_first "@" s) as [Hs|(svc & env & Hsvc & ->)].
  - rewrite fromEntry_plain by done. simpl. split_and!; [done|done|]. by left.
  - change (String "@" env) with ("@" +:+ env).
    rewrite fromEntry_at by done. simpl. split_and!; [done| |].
    + by destruct env.
    + right. by exists svc, env.
Qed.

(** ** More on [setup] *)

Section SetupFurther.
Context {host : Host}.

Lemma load_env_loadable (self : BindingsPlugin) b w :
  env_loadable self = true →
  ∃ b', load_env self (b, w) = Normal (b', w ++ env_watch self).
Proof.
  unfold env_loadable, load_env, env_watch.
  destruct (effective_envPath self) as [p|]; simpl.
  - destruct (fs_readFile _) as [data|e]; simpl; [eauto|].
    intros ->. eauto.
  - rewrite app_nil_r. eauto.
Qed.

Lemma load_env_not_loadable (self : BindingsPlugin) acc :
  env_loadable self = false →
  ∃ p e, effective_envPath self = Some p
         ∧ fs_readFile (path_resolve (rootPath self) p) = Throw e
         ∧ load_env self acc = Throw e.
Proof.
  destruct acc as [b w]. unfold env_loadable, load_env.
  destruct (effective_envPath self) as [p|]; simpl; [|done].
  destruct (fs_readFile _) as [data|e] eqn:Hr; simpl; [done|].
  intros ->. by exists p, e.
Qed.

Lemma load_wasm_entry_loadable (self : BindingsPlugin) b w entry :
  entry_loadable self entry = true →
  ∃ b', load_wasm_entry self (b, w) entry
        = Normal (b', w ++ [path_resolve (rootPath self) entry.2]).
Proof.
  destruct entry as [n p]. unfold entry_loadable, load_wasm_entry. simpl.
  destruct (fs_readFile _) as [bytes|e]; simpl; [|done].
  unfold WebAssembly_Module. intros ->. simpl. eauto.
Qed.

Lemma for_of_cons {A S} (body : S → A → Completion S) (s : S) (x : A)
    (l : list A) :
  for_of body s (x :: l) = (s' ← body s x; for_of body s' l).
Proof. reflexivity. Qed.

Lemma for_of_wasm_loadable (self : BindingsPlugin) entries b w :
  forallb (entry_loadable self) entries = true →
  ∃ b' w', for_of (load_wasm_entry self) (b, w) entries = Normal (b', w').
Proof.
  revert b w. induction entries as [|entry l IH]; intros b w; [by eauto|].
  intros [He Hl]%andb_true_iff. rewrite for_of_cons.
  destruct (load_wasm_entry_loadable self b w entry He) as [b' ->].
  by apply IH.
Qed.

Lemma for_of_wasm_Normal_loadable (self : BindingsPlugin) entries acc acc' :
  for_of (load_wasm_entry self) acc entries = Normal acc' →
  forallb (entry_loadable self) entries = true.
Proof.
  destruct acc as [b w], acc' as [b' w']. intros Hl.
  apply load_wasm_entries_Normal in Hl as (_ & _ & Hall).
  apply forallb_forall. intros entry Hin.
  rewrite Forall_forall in Hall.
  destruct (Hall entry) as (bytes & Hr & Hv); [by apply list_elem_of_In|].
  unfold entry_loadable. by rewrite Hr.
Qed.

(** [setup] returns exactly when it has nothing to throw at: the env file
    in effect can be read (or is the default one and does not exist), and the
    file of every WebAssembly binding can be read and holds a valid module.
    Nothing else makes [setup] fail. *)
Theorem setup_returns_iff (self : BindingsPlugin) :
  (∃ r, setup self = Normal r)
  ↔ env_loadable self && wasm_loadable self = true.
Proof.
  split.
  - intros [r Hs].
    apply setup_Normal in Hs as (b2 & w2 & b3 & w3 & Henv & Hwasm & _).
    apply andb_true_iff. split.
    + destruct (env_loadable self) eqn:He; [done|].
      destruct (load_env_not_loadable self
                  (Object_assign ∅ (kWranglerBindings self), []) He)
        as (p & e & _ & _ & Hthrow).
      congruence.
    + unfold wasm_loadable. unfold load_wasm in Hwasm.
      destruct (wasmBindings self) as [entries|]; [|done].
      by eapply for_of_wasm_Normal_loadable.
  - intros [He Hw]%andb_true_iff. unfold setup.
    destruct (load_env_loadable self
                (Object_assign ∅ (kWranglerBindings self)) [] He) as [b2 ->].
    simpl. unfold wasm_loadable in Hw. unfold load_wasm.
    destruct (wasmBindings self) as [entries|]; simpl; [|eauto].
    destruct (for_of_wasm_loadable self entries b2 (env_watch self) Hw)
      as (b3 & w3 & ->).
    simpl. eauto.
Qed.

(** At the default env path only a missing file is forgiven: any other
    error of the read (a [.env] that exists but cannot be read, say) makes
    [setup] throw that error. *)
Theorem setup_default_env_unreadable (self : BindingsPlugin) (e : Error) :
  envPath self = Some (EnvFlag true) →
  fs_readFile (path_resolve (rootPath self) ".env") = Throw e →
  is_ENOENT e = false →
  setup self = Throw e.
Proof.
  intros Henv Hread Hcode.
  unfold setup, load_env, effective_envPath.
  rewrite Henv. simpl. rewrite Hread. simpl.
  by rewrite Hcode.
Qed.

Lemma for_of_app {A S} (body : S → A → Completion S) (s : S) (l1 l2 : list A) :
  for_of body s (l1 ++ l2) = (s' ← for_of body s l1; for_of body s' l2).
Proof.
  revert s. induction l1 as [|x l1 IH]; intros s; simpl; [done|].
  destruct (body s x) as [s'|e]; simpl; [apply IH|done].
Qed.

(** The WebAssembly files are read in the order of the bindings and the
    first read that fails ends [setup]: when the env step has nothing to
    throw and the bindings before [n] all load, [setup] throws the error of
    reading the file of [n], whatever follows. *)
Theorem setup_first_wasm_failure (self : BindingsPlugin)
    (before after : list (string * string)) (n wasmPath : string) (e : Error) :
  wasmBindings self = Some (before ++ (n, wasmPath) :: after) →
  env_loadable self = true →
  forallb (entry_loadable self) before = true →
  fs_readFile (path_resolve (rootPath self) wasmPath) = Throw e →
  setup self = Throw e.
Proof.
  intros Hw He Hb Hread. unfold setup.
  destruct (load_env_loadable self
              (Object_assign ∅ (kWranglerBindings self)) [] He) as [b2 ->].
  simpl. unfold load_wasm. rewrite Hw, for_of_app.
  destruct (for_of_wasm_loadable self before b2 (env_watch self) Hb)
    as (b3 & w3 & ->).
  simpl. by rewrite Hread.
Qed.

(** The bindings of [setup], name by name. *)
Lemma res_bindings_lookup (self : BindingsPlugin) (r : SetupResult) (k : string) :
  setup self = Normal r →
  k ≠ "__proto__" →
  res_bindings r !! k =
    match bindings self ≫= (λ m, m !! k) with
    | Some v => Some v
    | None =>
        match service_source self k with
        | Some v => Some v
        | None =>
            match wasm_source self k with
            | Some v => Some v
            | None =>
                match env_source self !! k with
                | Some v => Some v
                | None => kWranglerBindings self ≫= (λ m, m !! k)
                end
            end
        end
    end.
Proof.
  intros Hs Hk.
  apply setup_Normal in Hs as (b2 & w2 & b3 & w3 & Henv & Hwasm & ->).
  apply load_env_Normal in Henv as [-> _].
  apply load_wasm_Normal in Hwasm as (Hb3 & _ & _).
  simpl. rewrite lookup_Object_assign, lookup_load_services, Hb3 by done.
  rewrite !lookup_Object_assign by done. simpl.
  change ((∅ : JsObject) !! k) with ((∅ : gmap string Value) !! k).
  rewrite lookup_empty.
  by destruct (kWranglerBindings self ≫= _).
Qed.

Lemma entries_last_is_Some {V} (k : string) (l : list (string * V)) :
  is_Some (entries_last k l) ↔ k ∈ l.*1.
Proof.
  induction l as [|[k' v] l IH]; simpl.
  - split; [by intros [? ?]|by intros ?%elem_of_nil].
  - rewrite elem_of_cons, <- IH.
    destruct (entries_last k l) as [v'|]; simpl.
    + split; [intros _; right|]; eauto.
    + destruct (decide (k' = k)) as [->|Hne].
      * split; [by left|eauto].
      * split; [by intros [? ?]|]. intros [?|[? ?]]; congruence.
Qed.

Lemma entries_last_NoDup {V} (k : string) (v : V) (l : list (string * V)) :
  NoDup l.*1 → (k, v) ∈ l → entries_last k l = Some v.
Proof.
  induction l as [|[k' v'] l IH]; simpl.
  - by intros _ ?%elem_of_nil.
  - intros [Hk' Hl]%NoDup_cons [[= -> ->]|Hin]%elem_of_cons.
    + destruct (entries_last k' l) as [v''|] eqn:Hlast.
      * destruct Hk'. apply entries_last_is_Some. by rewrite Hlast.
      * by rewrite decide_True.
    + by rewrite (IH Hl Hin).
Qed.

(** Apart from [__proto__], which assignment treats in its own way,
    [setup] binds the names of its five sources and no other name. *)
Theorem setup_binds_source_names (self : BindingsPlugin) (r : SetupResult)
    (k : string) :
  setup self = Normal r →
  k ≠ "__proto__" →
  is_Some (res_bindings r !! k)
  ↔ is_Some (kWranglerBindings self ≫= (λ m, m !! k))
    ∨ is_Some (env_source self !! k)
    ∨ k ∈ (default [] (wasmBindings self)).*1
    ∨ k ∈ name <$> processedServiceBindings self
    ∨ is_Some (bindings self ≫= (λ m, m !! k)).
Proof.
  intros Hs Hk. rewrite (res_bindings_lookup self r k Hs Hk).
  assert (Hwasm : is_Some (wasm_source self k)
                  ↔ k ∈ (default [] (wasmBindings self)).*1).
  { rewrite <- entries_last_is_Some. unfold wasm_source.
    apply setup_Normal in Hs as (b2 & w2 & b3 & w3 & _ & Hw & _).
    apply load_wasm_Normal in Hw as (_ & _ & Hall).
    destruct (entries_last k _) as [p|] eqn:Hlast; simpl; [|done].
    apply entries_last_elem_of in Hlast. rewrite Forall_forall in Hall.
    destruct (Hall _ Hlast) as (bytes & Hr & _). simpl in Hr.
    rewrite Hr. split; eauto. }
  assert (Hsvc : is_Some (service_source self k)
                 ↔ k ∈ name <$> processedServiceBindings self).
  { unfold service_source. rewrite entries_last_is_Some.
    by rewrite <- list_fmap_compose. }
  rewrite <- Hwasm, <- Hsvc.
  destruct (bindings self ≫= _);
    [split; intros _; [do 4 right|]; by eexists|].
  destruct (service_source self k);
    [split; intros _; [do 3 right; left|]; by eexists|].
  destruct (wasm_source self k);
    [split; intros _; [do 2 right; left|]; by eexists|].
  destruct (env_source self !! k);
    [split; intros _; [right; left|]; by eexists|].
  destruct (kWranglerBindings self ≫= _);
    [split; intros _; [left|]; by eexists|].
  split; [by intros [? ?]|]. intros [[? ?]|[[? ?]|[[? ?]|[[? ?]|[? ?]]]]]; done.
Qed.

(** A service binding that no custom binding shadows is bound to a
    [Fetcher] on its own target, and a WebAssembly binding that neither a
    service binding nor a custom binding shadows is bound to the module read
    from its file, when the name of the binding is not [__proto__]. *)
Theorem setup_binds_fetchers_and_modules (self : BindingsPlugin)
    (r : SetupResult) :
  setup self = Normal r →
  NoDup (name <$> processedServiceBindings self) →
  NoDup (default [] (wasmBindings self)).*1 →
  (∀ psb, psb ∈ processedServiceBindings self →
          name psb ≠ "__proto__" →
          bindings self ≫= (λ m, m !! name psb) = None →
          res_bindings r !! name psb
          = Some (VFetcher (Fetcher_new (service psb))))
  ∧ (∀ n wasmPath,
       (n, wasmPath) ∈ default [] (wasmBindings self) →
       n ≠ "__proto__" →
       bindings self ≫= (λ m, m !! n) = None →
       n ∉ name <$> processedServiceBindings self →
       ∃ bytes,
         fs_readFile (path_resolve (rootPath self) wasmPath) = Normal bytes
         ∧ res_bindings r !! n = Some (VModule bytes)).
Proof.
  intros Hs Hnames Hwasm. split.
  - intros psb Hin Hproto Hcustom.
    rewrite (res_bindings_lookup self r _ Hs Hproto), Hcustom.
    unfold service_source. erewrite entries_last_NoDup; [done| |].
    + by rewrite <- list_fmap_compose.
    + apply list_elem_of_fmap. by exists psb.
  - intros n wasmPath Hin Hproto Hcustom Hsvc.
    rewrite (res_bindings_lookup self r _ Hs Hproto), Hcustom.
    assert (Hnone : service_source self n = None).
    { apply eq_None_not_Some. unfold service_source.
      rewrite entries_last_is_Some. by rewrite <- list_fmap_compose. }
    rewrite Hnone. unfold wasm_source.
    rewrite (entries_last_NoDup n wasmPath _ Hwasm Hin). simpl.
    apply setup_Normal in Hs as (b2 & w2 & b3 & w3 & _ & Hw & _).
    apply load_wasm_Normal in Hw as (_ & _ & Hall).
    rewrite Forall_forall in Hall.
    destruct (Hall _ Hin) as (bytes & Hr & _). simpl in Hr.
    exists bytes. by rewrite Hr.
Qed.

End SetupFurther.

(** The constructor makes one processed binding per entry of
    [serviceBindings], in order and under the same name, and gives each a
    non-empty environment: [production] stands in for a missing or empty
    one. *)
Theorem constructor_processed_bindings (root : string) (options : BindingsOptions) :
  let self := BindingsPlugin_new root options in
  name <$> processedServiceBindings self
  = (default [] (opt_serviceBindings options)).*1
  ∧ Forall (λ psb, environment psb ≠ "") (processedServiceBindings self)
  ∧ ∀ n svc, (n, ServiceObject svc None) ∈ default [] (opt_serviceBindings options)
             ∨ (n, ServiceObject svc (Some "")) ∈ default [] (opt_serviceBindings options)
             ∨ (n, ServiceName svc) ∈ default [] (opt_serviceBindings options) →
      {| name := n; service := Named svc; environment := "production" |}
      ∈ processedServiceBindings self.
Proof.
  simpl. split_and!.
  - rewrite <- list_fmap_compose. apply list_fmap_ext. by intros i [n o].
  - apply Forall_fmap, Forall_forall. intros [n o] _. simpl.
    destruct o as [s|s [e|]|f]; simpl; try done.
    destruct e; simpl; done.
  - intros n svc Hin. apply list_elem_of_fmap.
    destruct Hin as [Hin|[Hin|Hin]]; eexists; (split; [|exact Hin]); done.
Qed.

(** ** More on the reload cycle *)

(** The two ways [reload] goes: its loop throws and nothing is written, or
    every named service is mounted and the mount table is adopted. *)
Lemma reload_cases (m : gmap string Mount) (w : World) :
  (all_mounted m (this w) = false ∧ ∃ e, reload m w = (Throw e, w))
  ∨ (all_mounted m (this w) = true
     ∧ reload m w =
         match contextResolve (this w) with
         | Some p =>
             (Normal tt,
              {| this := with_mounts (Some m) (this w);
                 promises := <[p := PResolved]> (promises w);
                 tasks := tasks w; log := log w; calls := calls w |})
         | None =>
             (Throw (AssertionError
                       (Some "beforeReload() must be called before reload()")),
              {| this := with_mounts (Some m) (this w);
                 promises := promises w;
                 tasks := tasks w; log := log w; calls := calls w |})
         end).
Proof.
  destruct (all_mounted m (this w)) eqn:Hall.
  - right. split; [done|]. apply reload_checked.
    by apply all_mounted_not_mounted.
  - left. split; [done|].
    destruct (check_loop_Throw m _ w (not_all_mounted _ _ Hall))
      as (psb & svc & _ & _ & _ & Heq).
    eexists. by apply reload_loop_Throw.
Qed.

Lemma run_invariant (I : World → Prop) (w : World) (evs : list Event) :
  (∀ w ev, I w → I (step w ev)) → I w → I (run w evs).
Proof.
  intros Hstep. revert w.
  induction evs as [|ev evs IH]; intros w Hw; simpl; [done|].
  apply IH. by apply Hstep.
Qed.

Lemma run_app (w : World) (evs1 evs2 : list Event) :
  run w (evs1 ++ evs2) = run (run w evs1) evs2.
Proof. apply foldl_app. Qed.

Lemma gate_consistent_step (w : World) (ev : Event) :
  gate_consistent w → gate_consistent (step w ev).
Proof.
  intros (Hres & Hlast & Hopen).
  destruct (is_close ev) eqn:Hc.
  - assert (step w ev = snd (beforeReload w)) as -> by (by destruct ev).
    rewrite beforeReload_eq. unfold gate_consistent. simpl. split_and!.
    + done.
    + rewrite length_app. simpl. lia.
    + intros p [= <-]. unfold is_resolved. simpl.
      by rewrite lookup_app_r, Nat.sub_diag.
  - destruct (is_reload ev) eqn:Hr.
    + destruct ev as [|m| | |]; try done. simpl.
      destruct (reload_cases m w) as [(_ & e & ->)|[Hall ->]]; [done|].
      destruct (contextResolve (this w)) as [q|] eqn:Hq;
        symmetry in Hres; rewrite Hres in Hlast;
        unfold gate_consistent; simpl; rewrite Hq, Hres.
      * split_and!; [done|by rewrite length_insert|].
        intros p _ _. by exists m.
      * split_and!; [done|done|]. by intros p.
    + destruct (step_dispatch_frame w ev Hc Hr) as [Hthis Hprom].
      unfold gate_consistent, is_resolved. by rewrite Hthis, Hprom.
Qed.

Lemma gate_consistent_reachable (root : string) (options : BindingsOptions)
    (evs : list Event) :
  gate_consistent (run (World_new root options) evs).
Proof.
  apply run_invariant; [apply gate_consistent_step|].
  unfold gate_consistent. simpl. split_and!; [done|done|]. by intros p.
Qed.

(** Whatever the host, the workers and the event loop do, the resolver the
    plugin holds is that of its current promise, and the current promise is
    the one made last: [reload] can open the current generation of the gate
    and no other. *)
Theorem resolver_is_of_current_promise (root : string)
    (options : BindingsOptions) (evs : list Event) :
  let w := run (World_new root options) evs in
  contextResolve (this w) = contextPromise (this w)
  ∧ match contextPromise (this w) with
    | Some p => S p = length (promises w)
    | None => promises w = []
    end.
Proof.
  destruct (gate_consistent_reachable root options evs) as (H1 & H2 & _).
  done.
Qed.

(** Whenever the gate is open, the plugin holds a mount table and every
    named service of its bindings is a key of it: what the comment in
    [#getServiceFetch] relies on. *)
Theorem open_gate_has_services_mounted (root : string)
    (options : BindingsOptions) (evs : list Event) (p i : nat)
    (psb : ProcessedServiceBinding) (svc : string) :
  let w := run (World_new root options) evs in
  contextPromise (this w) = Some p →
  is_resolved w p = true →
  processedServiceBindings (this w) !! i = Some psb →
  service psb = Named svc →
  ∃ m mount, mounts (this w) = Some m ∧ m !! svc = Some mount.
Proof.
  intros w Hp Hres Hi Hsvc.
  destruct (gate_consistent_reachable root options evs) as (_ & _ & Hopen).
  destruct (Hopen p Hp Hres) as (m & Hm & Hall).
  assert (Hin : psb ∈ processedServiceBindings (this w))
    by (apply list_elem_of_lookup; eauto).
  pose proof (all_mounted_not_mounted m _ Hall psb Hin) as Hn.
  unfold not_mounted in Hn. rewrite Hsvc in Hn.
  apply negb_false_iff, bool_decide_eq_true in Hn as [mount Hmount].
  by exists m, mount.
Qed.

(** A promise that is resolved stays resolved, and the store of promises
    never shrinks: once a generation of the gate is open, it is open for
    good. *)
Theorem resolved_stays_resolved (w : World) (p : nat) (evs : list Event) :
  is_resolved w p = true →
  is_resolved (run w evs) p = true
  ∧ (length (promises w) ≤ length (promises (run w evs)))%nat.
Proof.
  revert w. induction evs as [|ev evs IH]; intros w Hp; simpl; [done|].
  assert (Hstep : is_resolved (step w ev) p = true
                  ∧ (length (promises w) ≤ length (promises (step w ev)))%nat).
  { unfold is_resolved in *.
    destruct (promises w !! p) as [[]|] eqn:Hlook; try done.
    destruct (is_close ev) eqn:Hc.
    - assert (step w ev = snd (beforeReload w)) as -> by (by destruct ev).
      rewrite beforeReload_eq. simpl.
      rewrite (lookup_app_l_Some _ _ _ _ Hlook), length_app. split; [done|lia].
    - destruct (is_reload ev) eqn:Hr.
      + destruct ev as [|m| | |]; try done. simpl.
        pose proof (reload_frame m w) as Hf. simpl in Hf.
        destruct Hf as (_ & _ & _ & _ & _ & [-> | (q & _ & ->)]).
        * by rewrite Hlook.
        * rewrite length_insert. split; [|done].
          destruct (decide (q = p)) as [->|Hne].
          -- rewrite list_lookup_insert_eq; [done|]. by eapply lookup_lt_Some.
          -- by rewrite list_lookup_insert_ne, Hlook.
      + destruct (step_dispatch_frame w ev Hc Hr) as [_ ->].
        by rewrite Hlook. }
  destruct Hstep as [Hres Hlen].
  destruct (IH _ Hres) as [Hres' Hlen']. split; [done|lia].
Qed.

Lemma pending_step_no_reload (w : World) (ev : Event) (p : nat) :
  is_reload ev = false →
  promises w !! p = Some PPending →
  promises (step w ev) !! p = Some PPending.
Proof.
  intros Hr Hp. destruct (is_close ev) eqn:Hc.
  - assert (step w ev = snd (beforeReload w)) as -> by (by destruct ev).
    rewrite beforeReload_eq. simpl. by apply lookup_app_l_Some.
  - by destruct (step_dispatch_frame w ev Hc Hr) as [_ ->].
Qed.

(** A dispatch to a named service issued after the gate was closed
    ([beforeReload] or [dispose]) stays suspended, whatever else happens and
    however often the event loop turns, as long as [reload] is not called. *)
Theorem dispatch_waits_for_reload (w : World) (close : Event) (svc : string)
    (input : RequestInfo) (init : option RequestInit) (evs : list Event) :
  is_close close = true →
  no_reload evs = true →
  let w1 := step (step w close) (EvFetch (Fetcher_new (Named svc)) input init) in
  tasks (run w1 evs) !! length (tasks w)
  = Some (AwaitContext (length (promises w)) svc (Request_new input init))
  ∧ is_resolved (run w1 evs) (length (promises w)) = false.
Proof.
  intros Hc Hevs w1.
  assert (Hw1 : tasks w1 !! length (tasks w)
                = Some (AwaitContext (length (promises w)) svc
                          (Request_new input init))
                ∧ promises w1 !! length (promises w) = Some PPending).
  { unfold w1.
    assert (step w close = snd (beforeReload w)) as -> by (by destruct close).
    rewrite beforeReload_eq. simpl. split.
    - by rewrite lookup_app_r, Nat.sub_diag.
    - by rewrite lookup_app_r, Nat.sub_diag. }
  clearbody w1. revert w1 Hw1.
  induction evs as [|ev evs IH]; intros w1 [Ht Hp]; simpl.
  - split; [done|]. unfold is_resolved. by rewrite Hp.
  - simpl in Hevs. apply andb_true_iff in Hevs as [Hev Hevs].
    apply negb_true_iff in Hev. apply IH; [done|]. split.
    + by apply orphaned_task_step.
    + by apply pending_step_no_reload.
Qed.

Lemma fetch_contained_outcome (fetch : FetcherFetch) (request : Request)
    (w : World) :
  fetch_contained fetch request w =
    match settle (fetch request) with
    | Rejected e =>
        (Fulfilled exception_response,
         {| this := this w; promises := promises w; tasks := tasks w;
            log := log w ++ [e]; calls := calls w ++ [(fetch, request)] |})
    | s =>
        (s,
         {| this := this w; promises := promises w; tasks := tasks w;
            log := log w; calls := calls w ++ [(fetch, request)] |})
    end.
Proof. unfold fetch_contained. simpl. by destruct (settle (fetch request)). Qed.

(** A whole cycle seen from a dispatch: issued while the plugin reloads, it
    is suspended; once [reload] has adopted a table that mounts its service
    with an entry point, two turns of the event loop make it invoke that
    entry point once with its request and settle as the call does, a failure
    of the call being contained. *)
Theorem dispatch_completes_after_reload (w : World) (m : gmap string Mount)
    (svc : string) (input : RequestInfo) (init : option RequestInit)
    (mount : Mount) (fetch : FetcherFetch) :
  all_mounted m (this w) = true →
  m !! svc = Some mount →
  dispatchFetch mount = Some fetch →
  let request := Request_new input init in
  let tid := length (tasks w) in
  let w1 := run w [EvBeforeReload; EvFetch (Fetcher_new (Named svc)) input init] in
  let w2 := run w1 [EvReload m; EvResume tid; EvResume tid] in
  tasks w1 !! tid = Some (AwaitContext (length (promises w)) svc request)
  ∧ tasks w2 !! tid
    = Some (Settled match settle (fetch request) with
                    | Rejected _ => Fulfilled exception_response
                    | s => s
                    end)
  ∧ calls w2 = calls w ++ [(fetch, request)].
Proof.
  intros Hall Hm Hf request tid w1 w2.
  assert (Hw1 : w1 =
    {| this := with_contextPromise (Some (length (promises w)))
                 (with_contextResolve (Some (length (promises w)))
                    (with_mounts None (this w)));
       promises := promises w ++ [PPending];
       tasks := tasks w ++ [AwaitContext (length (promises w)) svc request];
       log := log w; calls := calls w |}) by reflexivity.
  assert (Ht1 : tasks w1 !! tid
                = Some (AwaitContext (length (promises w)) svc request)).
  { rewrite Hw1. simpl. by rewrite lookup_app_r, Nat.sub_diag. }
  split; [done|].
  set (w3 := step w1 (EvReload m)).
  assert (Hw3 : w3 =
    {| this := with_mounts (Some m) (this w1);
       promises := <[length (promises w) := PResolved]> (promises w1);
       tasks := tasks w1; log := log w1; calls := calls w1 |}).
  { unfold w3. simpl. rewrite reload_checked.
    - by rewrite Hw1.
    - rewrite Hw1. simpl. by apply all_mounted_not_mounted. }
  assert (Ht3 : tasks w3 !! tid
                = Some (AwaitContext (length (promises w)) svc request))
    by (by rewrite Hw3).
  assert (Hres : is_resolved w3 (length (promises w)) = true).
  { rewrite Hw3, Hw1. unfold is_resolved. simpl.
    rewrite list_lookup_insert_eq; [done|]. rewrite length_app. simpl. lia. }
  assert (Hlook : lookup_dispatchFetch (this w3) svc = Some fetch).
  { rewrite Hw3. unfold lookup_dispatchFetch. simpl. by rewrite Hm. }
  set (w4 := step w3 (EvResume tid)).
  assert (Hw4 : w4 = set_tasks (<[tid := AwaitServiceFetch (Normal fetch) request]>
                                  (tasks w3)) w3).
  { unfold w4. rewrite (step_resume _ _ _ Ht3). simpl. rewrite Hres.
    unfold getServiceFetch_resume, mbind, M_bind, get_this, assert. simpl.
    by rewrite Hlook. }
  assert (Ht4 : tasks w4 !! tid = Some (AwaitServiceFetch (Normal fetch) request)).
  { rewrite Hw4. simpl. apply list_lookup_insert_eq. by eapply lookup_lt_Some. }
  change w2 with (step w4 (EvResume tid)).
  rewrite (step_resume_task _ _ _ Ht4), (step_resume _ _ _ Ht4). simpl.
  rewrite fetch_contained_outcome.
  assert (Hcalls : calls w4 = calls w) by (by rewrite Hw4, Hw3, Hw1).
  destruct (settle (fetch request)); simpl; by rewrite Hcalls.
Qed.

(** ** More on dispatch *)

(** A dispatch that resumes and finds no entry point for its service (the
    plugin holds no mount table because a later [beforeReload] cleared it,
    or the table lacks the service, or the mount has no [dispatchFetch])
    fails [assert(fetch)]: [fetch] is rejected with an [AssertionError], it
    does not wait for the next [reload], and nothing is invoked, logged or
    answered with the 500 response. *)
Theorem dispatch_without_entry_point (w : World) (tid p : nat) (svc : string)
    (request : Request) :
  tasks w !! tid = Some (AwaitContext p svc request) →
  is_resolved w p = true →
  lookup_dispatchFetch (this w) svc = None →
  let w' := run w [EvResume tid; EvResume tid] in
  tasks w' !! tid = Some (Settled (Rejected (AssertionError None)))
  ∧ log w' = log w ∧ calls w' = calls w.
Proof.
  intros Ht Hres Hlook w'.
  set (w1 := step w (EvResume tid)).
  assert (Hw1 : w1 = set_tasks
            (<[tid := AwaitServiceFetch (Throw (AssertionError None)) request]>
               (tasks w)) w).
  { unfold w1. rewrite (step_resume _ _ _ Ht). simpl. rewrite Hres.
    unfold getServiceFetch_resume, mbind, M_bind, get_this, assert. simpl.
    by rewrite Hlook. }
  assert (Ht1 : tasks w1 !! tid
                = Some (AwaitServiceFetch (Throw (AssertionError None)) request)).
  { rewrite Hw1. simpl. apply list_lookup_insert_eq. by eapply lookup_lt_Some. }
  change w' with (step w1 (EvResume tid)).
  rewrite (step_resume_task _ _ _ Ht1), (step_resume _ _ _ Ht1). simpl.
  by rewrite Hw1.
Qed.

Lemma for_each_ext {A} (f g : A → M unit) (l : list A) :
  (∀ x, f x = g x) → for_each f l = for_each g l.
Proof.
  intros Hfg. induction l as [|x l IH]; simpl; [done|]. by rewrite Hfg, IH.
Qed.

(** [reload] looks at the keys of the mount table only: two tables with the
    same keys are accepted or refused alike, with the same error. Whether a
    mount has a [dispatchFetch] is not checked before a dispatch needs it. *)
Theorem reload_checks_keys_only (w : World) (m m' : gmap string Mount) :
  dom m = dom m' →
  fst (reload m w) = fst (reload m' w).
Proof.
  intros Hdom.
  assert (Hcheck : ∀ psb, check_mounted m psb = check_mounted m' psb).
  { intros psb. unfold check_mounted. destruct (service psb) as [s|f]; [|done].
    assert (bool_decide (is_Some (m !! s)) = bool_decide (is_Some (m' !! s)))
      as ->; [|done].
    apply bool_decide_ext. by rewrite <- !elem_of_dom, Hdom. }
  unfold reload, mbind, M_bind, get_this at 1 3.
  rewrite (for_each_ext _ _ _ Hcheck).
  destruct (for_each (check_mounted m') _ w) as [[[]|e] w0]; simpl; [|done].
  by destruct (contextResolve (this w0)).
Qed.

(** When the entry point of a named service neither throws nor rejects,
    [fetch] settles exactly as the call does (fulfilled with the very
    response, or never), and nothing is logged. *)
Theorem named_fetch_passes_result_through (w : World) (tid : nat)
    (fetch : FetcherFetch) (request : Request) :
  tasks w !! tid = Some (AwaitServiceFetch (Normal fetch) request) →
  is_rejected (settle (fetch request)) = false →
  let w' := step w (EvResume tid) in
  tasks w' !! tid = Some (Settled (settle (fetch request)))
  ∧ log w' = log w
  ∧ calls w' = calls w ++ [(fetch, request)].
Proof.
  intros Ht Hok w'. unfold w'.
  rewrite (step_resume_task _ _ _ Ht), (step_resume _ _ _ Ht). simpl.
  rewrite fetch_contained_outcome.
  by destruct (settle (fetch request)).
Qed.

(** The log receives the errors of failed entry points of named services
    and nothing else: every event leaves the log as it is, except the turn
    of the event loop in which such a call throws or rejects, which appends
    that one error. Failed assertions, unmounted services and the failures of
    handler functions are never logged. *)
Theorem log_only_contained_failures (w : World) (ev : Event) :
  log (step w ev) = log w
  ∨ ∃ tid fetch request e,
      ev = EvResume tid
      ∧ tasks w !! tid = Some (AwaitServiceFetch (Normal fetch) request)
      ∧ settle (fetch request) = Rejected e
      ∧ log (step w ev) = log w ++ [e].
Proof.
  destruct ev as [|m| |f input init|tid]; simpl.
  - by left.
  - left. pose proof (reload_frame m w) as Hf. simpl in Hf. tauto.
  - by left.
  - left. unfold Fetcher_fetch. destruct (Fetcher_service f) as [svc|h]; simpl.
    + unfold getServiceFetch_begin, mbind, M_bind, get_this, assert. simpl.
      by destruct (contextPromise (this w)).
    + done.
  - destruct (tasks w !! tid) as [t|] eqn:Ht; [|by left].
    destruct t as [p svc request|[fetch|e] request|s]; simpl.
    + left. destruct (is_resolved w p); [|done].
      unfold getServiceFetch_resume, mbind, M_bind, get_this, assert. simpl.
      by destruct (lookup_dispatchFetch (this w) svc).
    + rewrite fetch_contained_outcome.
      destruct (settle (fetch request)) as [r|e|] eqn:Hs; simpl;
        [by left| |by left].
      right. by exists tid, fetch, request, e.
    + by left.
    + by left.
Qed.

Lemma filter_past_app (l1 l2 : list Task) :
  length (List.filter is_past_getServiceFetch (l1 ++ l2))
  = length (List.filter is_past_getServiceFetch l1) + length (List.filter is_past_getServiceFetch l2).
Proof. by rewrite List.filter_app, length_app. Qed.

Lemma filter_past_insert (l : list Task) (i : nat) (t0 t : Task) :
  l !! i = Some t0 →
  length (List.filter is_past_getServiceFetch (<[i := t]> l))
  + (if is_past_getServiceFetch t0 then 1 else 0)
  = length (List.filter is_past_getServiceFetch l) + (if is_past_getServiceFetch t then 1 else 0).
Proof.
  revert i. induction l as [|x l IH]; intros [|i]; simpl; try done.
  - intros [= ->]. destruct (is_past_getServiceFetch t0), (is_past_getServiceFetch t); simpl; lia.
  - intros Hi. specialize (IH i Hi).
    destruct (is_past_getServiceFetch x); simpl; lia.
Qed.

Lemma filter_past_le (l : list Task) :
  (length (List.filter is_past_getServiceFetch l) ≤ length l)%nat.
Proof.
  induction l as [|x l IH]; simpl; [done|].
  destruct (is_past_getServiceFetch x); simpl; lia.
Qed.

Lemma calls_past_step (w : World) (ev : Event) :
  (length (calls w) ≤ past_getServiceFetch_count w)%nat →
  (length (calls (step w ev)) ≤ past_getServiceFetch_count (step w ev))%nat.
Proof.
  unfold past_getServiceFetch_count. intros Hle.
  destruct ev as [|m| |f input init|tid]; simpl.
  - done.
  - pose proof (reload_frame m w) as Hf. simpl in Hf.
    destruct Hf as (-> & _ & -> & _). done.
  - done.
  - unfold Fetcher_fetch. destruct (Fetcher_service f) as [svc|h]; simpl.
    + unfold getServiceFetch_begin, mbind, M_bind, get_this, assert. simpl.
      destruct (contextPromise (this w)); simpl;
        rewrite filter_past_app; simpl; lia.
    + rewrite filter_past_app, length_app. simpl. lia.
  - destruct (tasks w !! tid) as [t|] eqn:Ht; [|done].
    destruct t as [p svc request|[fetch|e] request|s]; simpl.
    + destruct (is_resolved w p); simpl.
      * unfold getServiceFetch_resume, mbind, M_bind, get_this, assert. simpl.
        destruct (lookup_dispatchFetch (this w) svc); simpl;
          match goal with
          | |- context [<[tid := ?t]> (tasks w)] =>
              pose proof (filter_past_insert _ _ _ t Ht) as Hi
          end; simpl in Hi; lia.
      * pose proof (filter_past_insert _ _ _
                      (AwaitContext p svc request) Ht) as Hi.
        simpl in Hi. lia.
    + rewrite fetch_contained_outcome.
      destruct (settle (fetch request)); simpl;
        match goal with
        | |- context [<[tid := ?t]> (tasks w)] =>
            pose proof (filter_past_insert _ _ _ t Ht) as Hi
        end; simpl in Hi; rewrite length_app; simpl; lia.
    + pose proof (filter_past_insert _ _ _
                    (Settled (Rejected e)) Ht) as Hi.
      simpl in Hi. lia.
    + pose proof (filter_past_insert _ _ _ (Settled s) Ht) as Hi.
      simpl in Hi. lia.
Qed.

(** Handlers are invoked by dispatches that are past the [await] of
    [#getServiceFetch] (or were made on a handler function), and at most
    once by each: at every moment the number of handler invocations is at
    most the number of those dispatches, so that the dispatches still
    suspended on the context promise or on [#getServiceFetch] account for
    none. *)
Theorem at_most_one_call_per_dispatch (root : string)
    (options : BindingsOptions) (evs : list Event) :
  let w := run (World_new root options) evs in
  (length (calls w) ≤ past_getServiceFetch_count w)%nat
  ∧ (past_getServiceFetch_count w ≤ length (tasks w))%nat.
Proof.
  split.
  - apply (run_invariant (λ w, (length (calls w) ≤ past_getServiceFetch_count w)%nat)).
    + apply calls_past_step.
    + done.
  - apply filter_past_le.
Qed.

(** A [reload] that has returned can be repeated: the same call again
    returns and leaves the world exactly as the first one left it. *)
Theorem reload_again_changes_nothing (m : gmap string Mount) (w : World) :
  fst (reload m w) = Normal tt →
  reload m (snd (reload m w)) = (Normal tt, snd (reload m w)).
Proof.
  intros Hok.
  destruct (reload_cases m w) as [(_ & e & Heq)|[Hall Heq]];
    rewrite Heq in Hok |- *; [done|].
  destruct (contextResolve (this w)) as [p|] eqn:Hp; [|done].
  simpl. rewrite reload_checked.
  - simpl. rewrite Hp. by rewrite list_insert_insert_eq.
  - simpl. by apply all_mounted_not_mounted.
Qed.

(** ** The further properties on sample runs *)

Lemma fromEntry_split_witness :
  occurs "@" "auth" = false
  ∧ serviceBindings_fromEntry ("AUTH", "auth" +:+ "@" +:+ "dev@eu")
    = ("AUTH", ServiceObject "auth" (Some "dev@eu"))
  ∧ serviceBindings_fromEntry ("AUTH", "auth@dev@eu")
    = ("AUTH", ServiceObject "auth" (Some "dev@eu")).
Proof.
  assert (H : occurs "@" "auth" = false) by (vm_compute; reflexivity).
  split_and!; [exact H| |vm_compute; reflexivity].
  exact (fromEntry_split "AUTH" "auth" "dev@eu" H).
Defined.

Lemma setup_default_env_unreadable_witness :
  let self := BindingsPlugin_new "/app" default_env_options in
  let e := JsError (Some "EACCES") "permission denied" in
  fs_readFile (Host := locked_host)
    (path_resolve (Host := locked_host) (rootPath self) ".env") = Throw e
  ∧ setup (host := locked_host) self = Throw e.
Proof.
  intros self e.
  assert (Hr : fs_readFile (Host := locked_host)
                 (path_resolve (Host := locked_host) (rootPath self) ".env")
               = Throw e) by (vm_compute; reflexivity).
  split; [exact Hr|].
  apply (setup_default_env_unreadable (host := locked_host) self e);
    [reflexivity|exact Hr|vm_compute; reflexivity].
Defined.

Lemma setup_first_wasm_failure_witness :
  let self := BindingsPlugin_new "/app" wasm_options in
  let e := JsError (Some "ENOENT") "no such file or directory" in
  entry_loadable (host := locked_host) self ("ADD", "add.wasm") = true
  ∧ fs_readFile (Host := locked_host)
      (path_resolve (Host := locked_host) (rootPath self) "sub.wasm") = Throw e
  ∧ setup (host := locked_host) self = Throw e.
Proof.
  intros self e.
  assert (Hr : fs_readFile (Host := locked_host)
                 (path_resolve (Host := locked_host) (rootPath self) "sub.wasm")
               = Throw e) by (vm_compute; reflexivity).
  split_and!; [vm_compute; reflexivity|exact Hr|].
  apply (setup_first_wasm_failure (host := locked_host) self
           [("ADD", "add.wasm")] [] "SUB" "sub.wasm" e);
    [reflexivity|vm_compute; reflexivity|vm_compute; reflexivity|exact Hr].
Defined.

Lemma setup_binds_source_names_witness :
  let self := BindingsPlugin_new "/app" add_options in
  let r := {| res_globals := None;
              res_bindings :=
                {| own := {[ "ADD" := VModule "wasm-bytes";
                             "AUTH" := VFetcher auth_fetcher ]};
                   prototype := None |};
              res_watch := ["/app/add.wasm"] |} in
  setup (host := locked_host) self = Normal r
  ∧ (is_Some (res_bindings r !! "HOME")
     ↔ is_Some (kWranglerBindings self ≫= (λ m, m !! "HOME"))
       ∨ is_Some (env_source (host := locked_host) self !! "HOME")
       ∨ "HOME" ∈ (default [] (wasmBindings self)).*1
       ∨ "HOME" ∈ name <$> processedServiceBindings self
       ∨ is_Some (bindings self ≫= (λ m, m !! "HOME")))
  ∧ res_bindings r !! "HOME" = None.
Proof.
  intros self r.
  assert (Hs : setup (host := locked_host) self = Normal r)
    by (vm_compute; reflexivity).
  split_and!; [exact Hs| |vm_compute; reflexivity].
  apply (setup_binds_source_names (host := locked_host) self r "HOME" Hs).
  discriminate.
Defined.

Lemma setup_binds_fetchers_and_modules_witness :
  let self := BindingsPlugin_new "/app" add_options in
  let r := {| res_globals := None;
              res_bindings :=
                {| own := {[ "ADD" := VModule "wasm-bytes";
                             "AUTH" := VFetcher auth_fetcher ]};
                   prototype := None |};
              res_watch := ["/app/add.wasm"] |} in
  setup (host := locked_host) self = Normal r
  ∧ (∀ psb, psb ∈ processedServiceBindings self →
            name psb ≠ "__proto__" →
            bindings self ≫= (λ m, m !! name psb) = None →
            res_bindings r !! name psb
            = Some (VFetcher (Fetcher_new (service psb))))
  ∧ res_bindings r !! "AUTH" = Some (VFetcher auth_fetcher)
  ∧ res_bindings r !! "ADD" = Some (VModule "wasm-bytes").
Proof.
  intros self r.
  assert (Hs : setup (host := locked_host) self = Normal r)
    by (vm_compute; reflexivity).
  assert (Hn : NoDup (name <$> processedServiceBindings self))
    by (apply (bool_decide_unpack _); vm_compute; exact I).
  assert (Hw : NoDup (default [] (wasmBindings self)).*1)
    by (apply (bool_decide_unpack _); vm_compute; exact I).
  split_and!; [exact Hs| |vm_compute; reflexivity..].
  exact (proj1 (setup_binds_fetchers_and_modules (host := locked_host)
                  self r Hs Hn Hw)).
Defined.

Lemma open_gate_has_services_mounted_witness :
  let evs := [EvBeforeReload; EvReload {[ "auth" := mount_of (respond "H1") ]}] in
  let w := run (World_new "/app" auth_options) evs in
  let psb := {| name := "AUTH"; service := Named "auth";
                environment := "production" |} in
  (contextPromise (this w) = Some 0 ∧ is_resolved w 0 = true
   ∧ processedServiceBindings (this w) !! 0 = Some psb)
  ∧ ∃ m mount, mounts (this w) = Some m ∧ m !! "auth" = Some mount.
Proof.
  intros evs w psb.
  assert (Hp : contextPromise (this w) = Some 0) by (vm_compute; reflexivity).
  assert (Hr : is_resolved w 0 = true) by (vm_compute; reflexivity).
  assert (Hi : processedServiceBindings (this w) !! 0 = Some psb)
    by (vm_compute; reflexivity).
  split_and!; [exact Hp|exact Hr|exact Hi|].
  exact (open_gate_has_services_mounted "/app" auth_options evs 0 0 psb "auth"
           Hp Hr Hi eq_refl).
Defined.

Lemma resolved_stays_resolved_witness :
  let w := run (World_new "/app" no_options) [EvBeforeReload; EvReload ∅] in
  let evs := [EvBeforeReload; EvReload ∅; EvDispose] in
  is_resolved w 0 = true
  ∧ is_resolved (run w evs) 0 = true
  ∧ promises (run w evs) = [PResolved; PResolved; PPending].
Proof.
  intros w evs.
  assert (Hr : is_resolved w 0 = true) by (vm_compute; reflexivity).
  split_and!; [exact Hr| |vm_compute; reflexivity].
  exact (proj1 (resolved_stays_resolved w 0 evs Hr)).
Defined.

Lemma dispatch_waits_for_reload_witness :
  let w := World_new "/app" auth_options in
  let evs := [EvResume 0; EvBeforeReload; EvResume 0] in
  let w1 := step (step w EvDispose)
              (EvFetch auth_fetcher (InfoUrl "http://localhost/") None) in
  tasks (run w1 evs) !! length (tasks w)
  = Some (AwaitContext (length (promises w)) "auth" sample_request)
  ∧ is_resolved (run w1 evs) (length (promises w)) = false.
Proof.
  intros w evs w1.
  exact (dispatch_waits_for_reload w EvDispose "auth"
           (InfoUrl "http://localhost/") None evs eq_refl eq_refl).
Defined.

Lemma dispatch_completes_after_reload_witness :
  let w := World_new "/app" auth_options in
  let m : gmap string Mount := {[ "auth" := mount_of (respond "H1") ]} in
  let tid := length (tasks w) in
  let w1 := run w [EvBeforeReload;
                   EvFetch auth_fetcher (InfoUrl "http://localhost/") None] in
  let w2 := run w1 [EvReload m; EvResume tid; EvResume tid] in
  (all_mounted m (this w) = true ∧ m !! "auth" = Some (mount_of (respond "H1")))
  ∧ tasks w1 !! tid = Some (AwaitContext (length (promises w)) "auth" sample_request)
  ∧ calls w2 = calls w ++ [(respond "H1", sample_request)]
  ∧ tasks w2 !! 0 = Some (Settled (Fulfilled (Response_new (Some "H1") 200 []))).
Proof.
  intros w m tid w1 w2.
  assert (Hall : all_mounted m (this w) = true) by (vm_compute; reflexivity).
  assert (Hm : m !! "auth" = Some (mount_of (respond "H1")))
    by (vm_compute; reflexivity).
  destruct (dispatch_completes_after_reload w m "auth"
              (InfoUrl "http://localhost/") None (mount_of (respond "H1"))
              (respond "H1") Hall Hm eq_refl) as (Ht1 & _ & Hcalls).
  split_and!; [exact Hall|exact Hm|exact Ht1|exact Hcalls|vm_compute; reflexivity].
Defined.

Lemma dispatch_without_entry_point_witness :
  let w := run (World_new "/app" auth_options)
             [EvBeforeReload;
              EvReload {[ "auth" := mount_without_dispatch ]};
              EvFetch auth_fetcher (InfoUrl "http://localhost/") None] in
  let w' := run w [EvResume 0; EvResume 0] in
  (tasks w !! 0 = Some (AwaitContext 0 "auth" sample_request)
   ∧ is_resolved w 0 = true
   ∧ lookup_dispatchFetch (this w) "auth" = None)
  ∧ tasks w' !! 0 = Some (Settled (Rejected (AssertionError None)))
  ∧ log w' = log w ∧ calls w' = calls w.
Proof.
  intros w w'.
  assert (Ht : tasks w !! 0 = Some (AwaitContext 0 "auth" sample_request))
    by (vm_compute; reflexivity).
  assert (Hr : is_resolved w 0 = true) by (vm_compute; reflexivity).
  assert (Hl : lookup_dispatchFetch (this w) "auth" = None)
    by (vm_compute; reflexivity).
  split; [by split_and!|].
  exact (dispatch_without_entry_point w 0 0 "auth" sample_request Ht Hr Hl).
Defined.

Lemma reload_checks_keys_only_witness :
  let w := run (World_new "/app" auth_options) [EvBeforeReload] in
  let m : gmap string Mount := {[ "auth" := mount_of (respond "H1") ]} in
  let m' : gmap string Mount := {[ "auth" := mount_without_dispatch ]} in
  dom m = dom m'
  ∧ fst (reload m w) = fst (reload m' w)
  ∧ fst (reload m' w) = Normal tt.
Proof.
  intros w m m'.
  assert (Hd : dom m = dom m') by (vm_compute; reflexivity).
  split_and!; [exact Hd| |vm_compute; reflexivity].
  exact (reload_checks_keys_only w m m' Hd).
Defined.

Lemma named_fetch_passes_result_through_witness :
  let w := run (World_new "/app" auth_options)
             [EvBeforeReload;
              EvReload {[ "auth" := mount_of (respond "H1") ]};
              EvFetch auth_fetcher (InfoUrl "http://localhost/") None;
              EvResume 0] in
  let w' := step w (EvResume 0) in
  tasks w !! 0 = Some (AwaitServiceFetch (Normal (respond "H1")) sample_request)
  ∧ (tasks w' !! 0 = Some (Settled (settle (respond "H1" sample_request)))
     ∧ log w' = log w
     ∧ calls w' = calls w ++ [(respond "H1", sample_request)])
  ∧ tasks w' !! 0 = Some (Settled (Fulfilled (Response_new (Some "H1") 200 []))).
Proof.
  intros w w'.
  assert (Ht : tasks w !! 0
               = Some (AwaitServiceFetch (Normal (respond "H1")) sample_request))
    by (vm_compute; reflexivity).
  split_and!; [exact Ht|..|vm_compute; reflexivity];
    apply (named_fetch_passes_result_through w 0 (respond "H1") sample_request
             Ht eq_refl).
Defined.

Lemma reload_again_changes_nothing_witness :
  let w := run (World_new "/app" auth_options) [EvBeforeReload] in
  let m : gmap string Mount := {[ "auth" := mount_of (respond "H1") ]} in
  fst (reload m w) = Normal tt
  ∧ reload m (snd (reload m w)) = (Normal tt, snd (reload m w)).
Proof.
  intros w m.
  assert (Hok : fst (reload m w) = Normal tt) by (vm_compute; reflexivity).
  split; [exact Hok|].
  exact (reload_again_changes_nothing m w Hok).
Defined.
